(** * Timeless-Touch: the image store (src/store/imageStore.ts)

    A shallow embedding of the zustand store that drives the editor: the
    adjustment knobs, the filter list of the active fabric image, the
    history ledger, the preset registry and the crop commit, together with
    the two UI callers in the preset selector that guard [addPreset] and
    [deletePreset].

    Conventions.
    - Knob values are JavaScript numbers; every caller passes integers
      (range inputs, presets, history snapshots), so they are modelled as [Z].
    - Geometry and filter parameters involve division and are modelled as
      exact rationals [Q]; the size of a canvas element is a whole number.
    - Strings are held as the bytes of their UTF-8 encoding.
    - fabric objects are shared between the canvas and the store, so they
      live in a heap addressed by identity; the store holds references.
    - [get()] / [set()] of the store become a state monad over [World]. *)

From Stdlib Require Import ZArith QArith Qround String Ascii List Lia Bool.
From stdpp Require Import base list.
Import ListNotations.

(** ** JavaScript array and string primitives used by the store *)

Module JS.

(** Relative index of [Array.prototype.slice]: negative counts from the end. *)
Definition relative (len i : Z) : Z :=
  if (i <? 0)%Z then Z.max (len + i) 0 else Z.min i len.

(** [l.slice(start, stop)]; [stop = None] is the omitted second argument. *)
Definition slice {A : Type} (l : list A) (start : Z) (stop : option Z) : list A :=
  let len := Z.of_nat (length l) in
  let k := relative len start in
  let final := match stop with
               | None => len
               | Some e => relative len e
               end in
  take (Z.to_nat (final - k)) (drop (Z.to_nat k) l).

(** [l[i]]: [undefined] (here [None]) outside [0 .. length-1]. *)
Definition index {A : Type} (l : list A) (i : Z) : option A :=
  if (i <? 0)%Z then None else l !! Z.to_nat i.

(** What [String.prototype.trim] strips is white space and line terminators.
    Those encoded in one byte: TAB, LF, VT, FF, CR and SPACE. *)
Definition isWhiteSpace1 (a : ascii) : bool :=
  let n := nat_of_ascii a in
  (Nat.leb 9 n && Nat.leb n 13) || Nat.eqb n 32.

(** In two bytes: NO-BREAK SPACE, U+00A0 = C2 A0. *)
Definition isWhiteSpace2 (a b : ascii) : bool :=
  Nat.eqb (nat_of_ascii a) 194 && Nat.eqb (nat_of_ascii b) 160.

(** In three bytes: U+1680 = E1 9A 80; U+2000 to U+200A = E2 80 80 to
    E2 80 8A; U+2028 = E2 80 A8; U+2029 = E2 80 A9; U+202F = E2 80 AF;
    U+205F = E2 81 9F; U+3000 = E3 80 80; U+FEFF = EF BB BF. *)
Definition isWhiteSpace3 (a b c : ascii) : bool :=
  let x := nat_of_ascii a in
  let y := nat_of_ascii b in
  let z := nat_of_ascii c in
  (Nat.eqb x 225 && Nat.eqb y 154 && Nat.eqb z 128)
  || (Nat.eqb x 226 && Nat.eqb y 128 &&
      ((Nat.leb 128 z && Nat.leb z 138) || Nat.eqb z 168 || Nat.eqb z 169
       || Nat.eqb z 175))
  || (Nat.eqb x 226 && Nat.eqb y 129 && Nat.eqb z 159)
  || (Nat.eqb x 227 && Nat.eqb y 128 && Nat.eqb z 128)
  || (Nat.eqb x 239 && Nat.eqb y 187 && Nat.eqb z 191).

(** Drop the leading characters recognised by [w1], [w2] and [w3]. *)
Fixpoint dropLeading (w1 : ascii -> bool) (w2 : ascii -> ascii -> bool)
         (w3 : ascii -> ascii -> ascii -> bool) (s : list ascii) : list ascii :=
  match s with
  | a :: s1 =>
      if w1 a then dropLeading w1 w2 w3 s1
      else
        match s1 with
        | b :: s2 =>
            if w2 a b then dropLeading w1 w2 w3 s2
            else
              match s2 with
              | c :: s3 => if w3 a b c then dropLeading w1 w2 w3 s3 else s
              | [] => s
              end
        | [] => s
        end
  | [] => []
  end.

(** [s.trimStart()] on the bytes of [s]. *)
Definition trimStartChars (s : list ascii) : list ascii :=
  dropLeading isWhiteSpace1 isWhiteSpace2 isWhiteSpace3 s.

(** [s.trimEnd()] on the bytes of [s]: the same scan over the reversed
    bytes, where an encoded character reads back to front. *)
Definition trimEndChars (s : list ascii) : list ascii :=
  rev (dropLeading isWhiteSpace1
                   (fun b a => isWhiteSpace2 a b)
                   (fun c b a => isWhiteSpace3 a b c)
                   (rev s)).

Definition trim (s : string) : string :=
  string_of_list_ascii (trimEndChars (trimStartChars (list_ascii_of_string s))).

(** Truthiness of a string: only the empty string is falsy. *)
Definition truthy (s : string) : bool :=
  match s with
  | EmptyString => false
  | String _ _ => true
  end.

End JS.

(** ** Data model *)

(** [interface Adjustment] *)
Record Adjustment := {
  brightness : Z;
  contrast : Z;
  saturation : Z;
  sharpness : Z;
  noise : Z
}.

(** [keyof Adjustment] *)
Inductive AdjKey := KBrightness | KContrast | KSaturation | KSharpness | KNoise.

(** [a[key]] *)
Definition knob (key : AdjKey) (a : Adjustment) : Z :=
  match key with
  | KBrightness => brightness a
  | KContrast => contrast a
  | KSaturation => saturation a
  | KSharpness => sharpness a
  | KNoise => noise a
  end.

(** [{ ...a, [key]: value }] *)
Definition set_knob (key : AdjKey) (value : Z) (a : Adjustment) : Adjustment :=
  match key with
  | KBrightness => {| brightness := value; contrast := contrast a;
                      saturation := saturation a; sharpness := sharpness a;
                      noise := noise a |}
  | KContrast => {| brightness := brightness a; contrast := value;
                    saturation := saturation a; sharpness := sharpness a;
                    noise := noise a |}
  | KSaturation => {| brightness := brightness a; contrast := contrast a;
                      saturation := value; sharpness := sharpness a;
                      noise := noise a |}
  | KSharpness => {| brightness := brightness a; contrast := contrast a;
                     saturation := saturation a; sharpness := value;
                     noise := noise a |}
  | KNoise => {| brightness := brightness a; contrast := contrast a;
                 saturation := saturation a; sharpness := sharpness a;
                 noise := value |}
  end.

(** [Object.entries(a)]: own keys in insertion order, which for every
    [Adjustment] the store builds is the declaration order. *)
Definition entries (a : Adjustment) : list (AdjKey * Z) :=
  [ (KBrightness, brightness a); (KContrast, contrast a);
    (KSaturation, saturation a); (KSharpness, sharpness a);
    (KNoise, noise a) ].

Module HistoryEntry.
(** [interface HistoryEntry] *)
Record t := {
  adjustments : Adjustment;
  imageData : option string;
  timestamp : Z
}.
End HistoryEntry.

Module Preset.
(** [interface Preset] *)
Record t := {
  name : string;
  adjustments : Adjustment
}.
End Preset.

Definition DEFAULT_ADJUSTMENTS : Adjustment :=
  {| brightness := 0; contrast := 0; saturation := 0; sharpness := 0; noise := 0 |}.

Definition DEFAULT_PRESETS : list Preset.t :=
  [ {| Preset.name := "Vintage";
       Preset.adjustments := {| brightness := -10; contrast := 10;
                                saturation := -20; sharpness := 0; noise := 20 |} |};
    {| Preset.name := "Dramatic";
       Preset.adjustments := {| brightness := -5; contrast := 30;
                                saturation := 10; sharpness := 20; noise := 0 |} |};
    {| Preset.name := "Classic B&W";
       Preset.adjustments := {| brightness := 0; contrast := 20;
                                saturation := -100; sharpness := 10; noise := 0 |} |} ].

(** ** fabric objects *)

(** The filter objects the store constructs, with their constructor option. *)
Inductive Filter :=
| Grayscale
| Brightness (b : Q)
| Contrast (c : Q)
| Saturation (s : Q)
| Sharpness (s : Q)
| Noise (n : Q).

(** [f instanceof fabric.Image.filters.Grayscale] *)
Definition isGrayscaleFilter (f : Filter) : bool :=
  match f with
  | Grayscale => true
  | _ => false
  end.

(** Identity of a fabric object: its slot in the heap. *)
Abbreviation ref := nat.

(** One [drawImage(img, sx, sy, sw, sh, dx, dy, dw, dh)] call. *)
Record DrawImage := {
  d_img : ref;
  d_sx : Q; d_sy : Q; d_sw : Q; d_sh : Q;
  d_dx : Q; d_dy : Q; d_dw : Q; d_dh : Q
}.

(** The temporary canvas of a crop: its size in pixels and what was drawn
    on it. *)
Record TempCanvas := {
  tc_width : Z;
  tc_height : Z;
  tc_drawn : DrawImage
}.

(** The integer part of a number (rounding toward zero). *)
Definition integerPart (v : Q) : Z :=
  if Qle_bool 0 v then Qfloor v else (- Qfloor (- v))%Z.

(** [canvas.width = v] or [canvas.height = v] followed by a read of the
    property: the number is converted to an unsigned 32-bit integer (its
    integer part modulo 2^32), and a result above 2^31 - 1 is replaced by the
    property's default (300 for the width, 150 for the height). *)
Definition canvasDimension (default : Z) (v : Q) : Z :=
  let n := (integerPart v mod 4294967296)%Z in
  if (n <=? 2147483647)%Z then n else default.

(** Where the pixels of an image come from. *)
Inductive Element :=
| Decoded (file : nat)
| FromCanvas (tc : TempCanvas).

(** [fabric.Image]: geometry, the [filters] array (possibly [undefined]) and
    the filter list handed to the last [applyFilters()]. *)
Record Image := {
  i_left : Q; i_top : Q;
  i_width : Q; i_height : Q;
  i_scaleX : Q; i_scaleY : Q;
  i_angle : Q;
  i_filters : option (list Filter);
  i_applied : list Filter;
  i_element : Element
}.

(** [fabric.Rect] *)
Record Rect := {
  r_left : Q; r_top : Q;
  r_width : Q; r_height : Q;
  r_scaleX : Q; r_scaleY : Q
}.

Inductive FabricObject :=
| OImage (i : Image)
| ORect (r : Rect).

(** [fabric.Canvas]: the object stack, the active selection and the number
    of [renderAll()] calls it has served. *)
Record Canvas := {
  c_objects : list ref;
  c_active : option ref;
  c_zoom : Q;
  c_renders : nat
}.

(** ** The store *)

(** The data fields of [interface ImageState]. *)
Record ImageState := {
  canvas : option Canvas;
  activeImage : option ref;
  isDarkMode : bool;
  isGrayscale : bool;
  isSplitView : bool;
  adjustments : Adjustment;
  history : list HistoryEntry.t;
  presets : list Preset.t
}.

(** Everything an operation can read or write: the store, the fabric heap,
    the wall clock ([wall n] is what the [n]-th [Date.now()] returns), whether
    the document hands out a 2d context, and the number of files handed to the
    browser for download. *)
Record World := {
  store : ImageState;
  heap : list FabricObject;
  wall : nat -> Z;
  reads : nat;
  context2d : bool;
  downloads : nat
}.

(** Record updates, one per field that some operation writes. *)
Definition with_canvas (c : option Canvas) (s : ImageState) : ImageState :=
  {| canvas := c; activeImage := activeImage s; isDarkMode := isDarkMode s;
     isGrayscale := isGrayscale s; isSplitView := isSplitView s;
     adjustments := adjustments s; history := history s; presets := presets s |}.

Definition with_activeImage (i : option ref) (s : ImageState) : ImageState :=
  {| canvas := canvas s; activeImage := i; isDarkMode := isDarkMode s;
     isGrayscale := isGrayscale s; isSplitView := isSplitView s;
     adjustments := adjustments s; history := history s; presets := presets s |}.

Definition with_isDarkMode (b : bool) (s : ImageState) : ImageState :=
  {| canvas := canvas s; activeImage := activeImage s; isDarkMode := b;
     isGrayscale := isGrayscale s; isSplitView := isSplitView s;
     adjustments := adjustments s; history := history s; presets := presets s |}.

Definition with_isGrayscale (b : bool) (s : ImageState) : ImageState :=
  {| canvas := canvas s; activeImage := activeImage s; isDarkMode := isDarkMode s;
     isGrayscale := b; isSplitView := isSplitView s;
     adjustments := adjustments s; history := history s; presets := presets s |}.

Definition with_isSplitView (b : bool) (s : ImageState) : ImageState :=
  {| canvas := canvas s; activeImage := activeImage s; isDarkMode := isDarkMode s;
     isGrayscale := isGrayscale s; isSplitView := b;
     adjustments := adjustments s; history := history s; presets := presets s |}.

Definition with_adjustments (a : Adjustment) (s : ImageState) : ImageState :=
  {| canvas := canvas s; activeImage := activeImage s; isDarkMode := isDarkMode s;
     isGrayscale := isGrayscale s; isSplitView := isSplitView s;
     adjustments := a; history := history s; presets := presets s |}.

Definition with_history (h : list HistoryEntry.t) (s : ImageState) : ImageState :=
  {| canvas := canvas s; activeImage := activeImage s; isDarkMode := isDarkMode s;
     isGrayscale := isGrayscale s; isSplitView := isSplitView s;
     adjustments := adjustments s; history := h; presets := presets s |}.

Definition with_presets (p : list Preset.t) (s : ImageState) : ImageState :=
  {| canvas := canvas s; activeImage := activeImage s; isDarkMode := isDarkMode s;
     isGrayscale := isGrayscale s; isSplitView := isSplitView s;
     adjustments := adjustments s; history := history s; presets := p |}.

Definition with_store (s : ImageState) (w : World) : World :=
  {| store := s; heap := heap w; wall := wall w; reads := reads w;
     context2d := context2d w; downloads := downloads w |}.

Definition with_heap (h : list FabricObject) (w : World) : World :=
  {| store := store w; heap := h; wall := wall w; reads := reads w;
     context2d := context2d w; downloads := downloads w |}.

(** ** The state monad of store operations *)

Definition M (A : Type) : Type := World -> A * World.

Definition ret {A : Type} (a : A) : M A := fun w => (a, w).

Definition bind {A B : Type} (m : M A) (k : A -> M B) : M B :=
  fun w => let (a, w') := m w in k a w'.

Declare Scope store_scope.
Delimit Scope store_scope with store.
Notation "'let*' x ':=' m 'in' k" := (bind m (fun x => k))
  (at level 10, x name, m at level 100, k at level 200) : store_scope.
Notation "m >> k" := (bind m (fun _ => k))
  (at level 100, k at level 200, right associativity) : store_scope.
Local Open Scope store_scope.

(** The world after running an operation. *)
Definition exec {A : Type} (m : M A) (w : World) : World := snd (m w).

(** zustand's [get()] and [set(fn)]. *)
Definition get : M ImageState := fun w => (store w, w).

Definition set (f : ImageState -> ImageState) : M unit :=
  fun w => (tt, with_store (f (store w)) w).

(** [Date.now()] *)
Definition Date_now : M Z :=
  fun w => (wall w (reads w),
            {| store := store w; heap := heap w; wall := wall w;
               reads := S (reads w); context2d := context2d w;
               downloads := downloads w |}).

(** [l.forEach(f)] *)
Fixpoint forEach {A : Type} (l : list A) (f : A -> M unit) : M unit :=
  match l with
  | [] => ret tt
  | x :: l' => f x >> forEach l' f
  end.

(** *** fabric calls *)

Definition onImage (f : Image -> Image) (o : FabricObject) : FabricObject :=
  match o with
  | OImage i => OImage (f i)
  | ORect r => ORect r
  end.

(** Mutate the image object behind a reference. *)
Definition updateImage (img : ref) (f : Image -> Image) : M unit :=
  fun w => (tt, with_heap (alter (onImage f) img (heap w)) w).

(** Read the image object behind a reference. *)
Definition imageAt (img : ref) (w : World) : option Image :=
  match heap w !! img with
  | Some (OImage i) => Some i
  | _ => None
  end.

Definition rectAt (r : ref) (w : World) : option Rect :=
  match heap w !! r with
  | Some (ORect x) => Some x
  | _ => None
  end.

Definition set_filters (fs : option (list Filter)) (i : Image) : Image :=
  {| i_left := i_left i; i_top := i_top i; i_width := i_width i;
     i_height := i_height i; i_scaleX := i_scaleX i; i_scaleY := i_scaleY i;
     i_angle := i_angle i; i_filters := fs; i_applied := i_applied i;
     i_element := i_element i |}.

(** [img.filters = fs] *)
Definition assignFilters (img : ref) (fs : list Filter) : M unit :=
  updateImage img (set_filters (Some fs)).

(** [img.filters?.push(...fs)] *)
Definition pushFilters (img : ref) (fs : list Filter) : M unit :=
  updateImage img (fun i => set_filters ((fun old => old ++ fs) <$> i_filters i) i).

(** [img.filters = img.filters?.filter(keep)] *)
Definition keepFilters (img : ref) (keep : Filter -> bool) : M unit :=
  updateImage img (fun i => set_filters (List.filter keep <$> i_filters i) i).

(** [img.applyFilters()]: bakes the current [filters] array (none when
    it is [undefined]). *)
Definition applyFilters (img : ref) : M unit :=
  updateImage img (fun i =>
    {| i_left := i_left i; i_top := i_top i; i_width := i_width i;
       i_height := i_height i; i_scaleX := i_scaleX i; i_scaleY := i_scaleY i;
       i_angle := i_angle i; i_filters := i_filters i;
       i_applied := default [] (i_filters i); i_element := i_element i |}).

Definition onCanvas (f : Canvas -> Canvas) : M unit :=
  set (fun s => with_canvas (f <$> canvas s) s).

Definition rendered (c : Canvas) : Canvas :=
  {| c_objects := c_objects c; c_active := c_active c; c_zoom := c_zoom c;
     c_renders := S (c_renders c) |}.

(** [canvas.renderAll()] *)
Definition renderAll : M unit := onCanvas rendered.

Definition removed (o : ref) (c : Canvas) : Canvas :=
  {| c_objects := List.filter (fun x => negb (Nat.eqb x o)) (c_objects c);
     c_active := match c_active c with
                 | Some a => if Nat.eqb a o then None else Some a
                 | None => None
                 end;
     c_zoom := c_zoom c; c_renders := c_renders c |}.

Definition added (o : ref) (c : Canvas) : Canvas :=
  {| c_objects := c_objects c ++ [o]; c_active := c_active c;
     c_zoom := c_zoom c; c_renders := c_renders c |}.

Definition activated (o : ref) (c : Canvas) : Canvas :=
  {| c_objects := c_objects c; c_active := Some o;
     c_zoom := c_zoom c; c_renders := c_renders c |}.

(** [canvas.remove(o)], [canvas.add(o)], [canvas.setActiveObject(o)] *)
Definition canvasRemove (o : ref) : M unit := onCanvas (removed o).
Definition canvasAdd (o : ref) : M unit := onCanvas (added o).
Definition setActiveObject (o : ref) : M unit := onCanvas (activated o).

(** [new fabric.X(...)]: the new object gets the next free identity. *)
Definition alloc (o : FabricObject) : M ref :=
  fun w => (length (heap w), with_heap (heap w ++ [o]) w).

(** ** Store operations, in the order of the source *)

Definition initialState : ImageState :=
  {| canvas := None; activeImage := None; isDarkMode := false;
     isGrayscale := false; isSplitView := false;
     adjustments := DEFAULT_ADJUSTMENTS; history := [];
     presets := DEFAULT_PRESETS |}.

Definition setCanvas (c : Canvas) : M unit := set (with_canvas (Some c)).

Definition setActiveImage (image : option ref) : M unit :=
  set (with_activeImage image).

Definition toggleDarkMode : M unit :=
  set (fun state => with_isDarkMode (negb (isDarkMode state)) state).

Definition toggleGrayscale : M unit :=
  let* s := get in
  match activeImage s, canvas s with
  | Some img, Some _ =>
      (if negb (isGrayscale s)
       then pushFilters img [Grayscale]
       else keepFilters img (fun f => negb (isGrayscaleFilter f))) >>
      applyFilters img >>
      renderAll >>
      set (with_isGrayscale (negb (isGrayscale s)))
  | _, _ => ret tt
  end.

Definition toggleSplitView : M unit :=
  set (fun state => with_isSplitView (negb (isSplitView state)) state).

Definition addHistoryEntry (entry : HistoryEntry.t) : M unit :=
  set (fun state =>
         with_history (JS.slice (history state) (-19) None ++ [entry]) state).

Definition updateAdjustment (key : AdjKey) (value : Z) : M unit :=
  let* s := get in
  match activeImage s, canvas s with
  | Some img, Some _ =>
      set (fun state =>
             with_adjustments (set_knob key value (adjustments state)) state) >>
      assignFilters img [] >>
      let* s' := get in
      let adj := adjustments s' in
      (if isGrayscale s' then pushFilters img [Grayscale] else ret tt) >>
      pushFilters img
        [ Brightness (inject_Z (brightness adj) / 100);
          Contrast (inject_Z (contrast adj) / 100);
          Saturation (inject_Z (saturation adj) / 100);
          Sharpness (inject_Z (sharpness adj));
          Noise (inject_Z (noise adj)) ] >>
      applyFilters img >>
      renderAll >>
      let* now := Date_now in
      addHistoryEntry {| HistoryEntry.adjustments := adj;
                         HistoryEntry.imageData := None;
                         HistoryEntry.timestamp := now |}
  | _, _ => ret tt
  end.

Definition resetAdjustments : M unit :=
  let* s := get in
  match activeImage s, canvas s with
  | Some img, Some _ =>
      assignFilters img [] >>
      applyFilters img >>
      renderAll >>
      set (fun state =>
             with_isGrayscale false (with_adjustments DEFAULT_ADJUSTMENTS state))
  | _, _ => ret tt
  end.

Definition undo : M unit :=
  let* s := get in
  match activeImage s, canvas s with
  | Some _, Some _ =>
      if (0 <? Z.of_nat (length (history s)))%Z then
        let previous :=
          match JS.index (history s) (Z.of_nat (length (history s)) - 2) with
          | Some previousEntry => HistoryEntry.adjustments previousEntry
          | None => DEFAULT_ADJUSTMENTS
          end in
        set (fun state =>
               with_history (JS.slice (history s) 0 (Some (-1)%Z))
                 (with_adjustments previous state)) >>
        updateAdjustment KBrightness (brightness previous)
      else ret tt
  | _, _ => ret tt
  end.

Definition addPreset (preset : Preset.t) : M unit :=
  set (fun state => with_presets (presets state ++ [preset]) state).

Definition applyPreset (preset : Preset.t) : M unit :=
  forEach (entries (Preset.adjustments preset))
          (fun kv => updateAdjustment (fst kv) (snd kv)).

Definition deletePreset (presetName : string) : M unit :=
  set (fun state =>
         with_presets
           (List.filter (fun p => negb (String.eqb (Preset.name p) presetName))
                        (presets state))
           state).

(** [image.rotate(a)] sets [angle]. fabric turns the image about its centre,
    which also moves the [left]/[top] of a corner origin by a trigonometric
    amount; that move is not tracked: the record keeps the position last
    set. *)
Definition rotated (angle : Q) (i : Image) : Image :=
  {| i_left := i_left i; i_top := i_top i; i_width := i_width i;
     i_height := i_height i; i_scaleX := i_scaleX i; i_scaleY := i_scaleY i;
     i_angle := i_angle i + angle; i_filters := i_filters i;
     i_applied := i_applied i; i_element := i_element i |}.

Definition rotateImage (angle : Q) : M unit :=
  let* s := get in
  match activeImage s, canvas s with
  | Some img, Some _ => updateImage img (rotated angle) >> renderAll
  | _, _ => ret tt
  end.

Definition cropImage : M unit :=
  let* s := get in
  match activeImage s, canvas s with
  | Some img, Some cv =>
      forEach (c_objects cv)
              (fun obj => if Nat.eqb obj img then ret tt else canvasRemove obj) >>
      fun w =>
        match imageAt img w with
        | Some i =>
            (let* cropRect :=
               alloc (ORect {| r_left := i_left i; r_top := i_top i;
                               r_width := i_width i * i_scaleX i;
                               r_height := i_height i * i_scaleY i;
                               r_scaleX := 1; r_scaleY := 1 |}) in
             canvasAdd cropRect >>
             setActiveObject cropRect >>
             renderAll) w
        | None => (tt, w)
        end
  | _, _ => ret tt
  end.

(** [objects.find(obj => obj instanceof fabric.Rect)] *)
Fixpoint findRect (w : World) (objects : list ref) : option (ref * Rect) :=
  match objects with
  | [] => None
  | o :: rest =>
      match rectAt o w with
      | Some r => Some (o, r)
      | None => findRect w rest
      end
  end.

(** What the [fabric.Image.fromURL] callback of a crop closes over. *)
Record Pending := {
  p_image : ref;
  p_rect : ref;
  p_temp : TempCanvas
}.

(** The synchronous part of [applyCrop]: it returns the pending image load,
    or [None] on each of the early returns. *)
Definition applyCrop : M (option Pending) :=
  fun w =>
    let s := store w in
    match canvas s, activeImage s with
    | Some cv, Some img =>
        match findRect w (c_objects cv) with
        | None => (None, w)
        | Some (rect, cropRect) =>
            if negb (context2d w) then (None, w)
            else
              match imageAt img w with
              | Some i =>
                  let width :=
                    canvasDimension 300 (r_width cropRect * r_scaleX cropRect) in
                  let height :=
                    canvasDimension 150 (r_height cropRect * r_scaleY cropRect) in
                  let left := ((r_left cropRect - i_left i) / i_scaleX i)%Q in
                  let top := ((r_top cropRect - i_top i) / i_scaleY i)%Q in
                  (Some {| p_image := img; p_rect := rect;
                           p_temp :=
                             {| tc_width := width; tc_height := height;
                                tc_drawn :=
                                  {| d_img := img; d_sx := left; d_sy := top;
                                     d_sw := r_width cropRect / i_scaleX i;
                                     d_sh := r_height cropRect / i_scaleY i;
                                     d_dx := 0; d_dy := 0;
                                     d_dw := inject_Z width;
                                     d_dh := inject_Z height |} |} |}, w)
              | None => (None, w)
              end
        end
    | _, _ => (None, w)
    end.

(** The callback of [fabric.Image.fromURL(tempCanvas.toDataURL(), ...)]:
    the decoded image has the pixel size of the temporary canvas. A canvas
    without pixels has no image to decode; what the callback is handed then
    is not modelled, and the properties of the size of the new image are
    stated for canvases of at least one pixel each way. *)
Definition cropLoaded (p : Pending) : M unit :=
  fun w =>
    match rectAt (p_rect p) w with
    | Some cropRect =>
        (canvasRemove (p_image p) >>
         canvasRemove (p_rect p) >>
         let* croppedImg :=
           alloc (OImage {| i_left := r_left cropRect; i_top := r_top cropRect;
                            i_width := inject_Z (tc_width (p_temp p));
                            i_height := inject_Z (tc_height (p_temp p));
                            i_scaleX := 1; i_scaleY := 1; i_angle := 0;
                            i_filters := Some []; i_applied := [];
                            i_element := FromCanvas (p_temp p) |}) in
         canvasAdd croppedImg >>
         setActiveObject croppedImg >>
         set (with_activeImage (Some croppedImg)) >>
         renderAll) w
    | None => (tt, w)
    end.

(** A crop commit whose image load completes before any other event. *)
Definition commitCrop : M unit :=
  let* pending := applyCrop in
  match pending with
  | Some p => cropLoaded p
  | None => ret tt
  end.

Definition downloadImage : M unit :=
  fun w =>
    match canvas (store w) with
    | Some _ =>
        (tt, {| store := store w; heap := heap w; wall := wall w;
                reads := reads w; context2d := context2d w;
                downloads := S (downloads w) |})
    | None => (tt, w)
    end.

(** ** The preset selector (components/Controls) *)

(** [handleSavePreset] with the text field holding [newPresetName]; the
    result is the text field afterwards. *)
Definition handleSavePreset (newPresetName : string) : M string :=
  if JS.truthy (JS.trim newPresetName) then
    let* s := get in
    addPreset {| Preset.name := newPresetName;
                 Preset.adjustments := adjustments s |} >>
    ret EmptyString
  else ret newPresetName.

(** The delete button is rendered only when
    [!DEFAULT_PRESETS.find(p => p.name === preset.name)]. *)
Definition deleteButtonShown (preset : Preset.t) : bool :=
  negb (existsb (fun p => String.eqb (Preset.name p) (Preset.name preset))
                DEFAULT_PRESETS).

(** A click on the delete button of [preset], when there is one. *)
Definition clickDelete (preset : Preset.t) : M unit :=
  if deleteButtonShown preset then deletePreset (Preset.name preset) else ret tt.

(** ** The crop button (components/Controls) *)

(** [handleCropClick] with the component state [isCropping]; the result is
    [isCropping] afterwards and the image load [applyCrop] started, if any. *)
Definition handleCropClick (isCropping : bool) : M (bool * option Pending) :=
  if negb isCropping then
    cropImage >> ret (true, None)
  else
    let* pending := applyCrop in
    ret (false, pending).

(** ** Loading an upload (components/ImageCanvas) *)

(** [a || b] on numbers: [0] is falsy. *)
Definition orElse (a b : Q) : Q := if Qeq_bool a 0 then b else a.

(** [Math.min(a, b)] and [Math.max(a, b)] *)
Definition Math_min (a b : Q) : Q := if Qle_bool a b then a else b.
Definition Math_max (a b : Q) : Q := if Qle_bool a b then b else a.

Definition cleared (c : Canvas) : Canvas :=
  {| c_objects := []; c_active := None; c_zoom := c_zoom c;
     c_renders := c_renders c |}.

(** The callback of [fabric.Image.fromURL] in [loadImage]: [file] has been
    decoded to an image of [width] by [height] pixels, and the canvas element
    is [canvasWidthProp] by [canvasHeightProp]. *)
Definition imageLoaded (canvasWidthProp canvasHeightProp : Q)
           (file : nat) (width height : Q) : M unit :=
  onCanvas cleared >>
  let canvasWidth := orElse canvasWidthProp 800 in
  let canvasHeight := orElse canvasHeightProp 600 in
  let scale :=
    (Math_min (canvasWidth / width) (canvasHeight / height) * (9 # 10))%Q in
  let* img :=
    alloc (OImage {| i_left := (canvasWidth - width * scale) / 2;
                     i_top := (canvasHeight - height * scale) / 2;
                     i_width := width; i_height := height;
                     i_scaleX := scale; i_scaleY := scale; i_angle := 0;
                     i_filters := Some []; i_applied := [];
                     i_element := Decoded file |}) in
  setActiveImage (Some img) >>
  canvasAdd img >>
  renderAll.

(** ** The custom Sharpness filter *)

(** [ImageData]: [data] is a [Uint8ClampedArray], four bytes per pixel. *)
Record ImageData := {
  id_width : nat;
  id_height : nat;
  id_data : list Z
}.

(** Storing a number into a [Uint8ClampedArray]: clamped to [0, 255] and
    rounded to the nearest integer, ties to even. *)
Definition toUint8Clamp (v : Q) : Z :=
  if Qle_bool v 0 then 0%Z
  else if Qle_bool 255 v then 255%Z
  else
    let f := Qfloor v in
    match (v - inject_Z f ?= 1 # 2)%Q with
    | Lt => f
    | Gt => (f + 1)%Z
    | Eq => if Z.even f then f else (f + 1)%Z
    end.

(** [for (let i = from; i < to; i++) body(i)], threading the array. *)
Definition forLoop {S : Type} (from to : nat) (body : nat -> S -> S) (s : S) : S :=
  fold_left (fun acc i => body i acc) (seq from (to - from)) s.

(** The body of the innermost loop of [applyTo2d], for channel [c] of the
    pixel at [idx]. A read outside the array is [undefined], the arithmetic
    then yields [NaN], and [NaN] is stored as 0. *)
Definition sharpenChannel (amount : Q) (idx idxN idxS idxE idxW c : nat)
           (data : list Z) : list Z :=
  match data !! (idx + c), data !! (idxN + c), data !! (idxS + c),
        data !! (idxE + c), data !! (idxW + c) with
  | Some current, Some n, Some s, Some e, Some w =>
      let neighbors :=
        ((inject_Z n + inject_Z s + inject_Z e + inject_Z w) / 4)%Q in
      <[idx + c :=
          toUint8Clamp
            (Math_min 255
               (Math_max 0
                  (inject_Z current + (inject_Z current - neighbors) * amount)))]>
        data
  | _, _, _, _, _ => <[idx + c := 0%Z]> data
  end.

(** [applyTo2d] of the filter whose [sharpness] property is [sharpness]. *)
Definition applyTo2d (sharpness : Q) (imageData : ImageData) : ImageData :=
  let width := id_width imageData in
  let height := id_height imageData in
  let amount := (sharpness / 50)%Q in
  {| id_width := width; id_height := height;
     id_data :=
       forLoop 1 (height - 1)
         (fun y =>
            forLoop 1 (width - 1)
              (fun x =>
                 let idx := (y * width + x) * 4 in
                 let idxN := ((y - 1) * width + x) * 4 in
                 let idxS := ((y + 1) * width + x) * 4 in
                 let idxE := (y * width + x + 1) * 4 in
                 let idxW := (y * width + x - 1) * 4 in
                 forLoop 0 3
                   (fun c data =>
                      sharpenChannel amount idx idxN idxS idxE idxW c data)))
         (id_data imageData) |}.

(** ** Vocabulary of the properties *)

(** The [n] newest elements of a list, oldest first. *)
Definition newest {A : Type} (n : nat) (l : list A) : list A :=
  drop (length l - n) l.

(** The guard [activeImage && canvas] of the mutating operations holds. *)
Definition ready (w : World) : Prop :=
  exists img cv, activeImage (store w) = Some img /\ canvas (store w) = Some cv.

(** The stack of section 4.1 of the specification: grayscale first when
    enabled, then the five knob filters with the scaling of the source. *)
Definition computeFilterStack (a : Adjustment) (grayscale : bool) : list Filter :=
  (if grayscale then [Grayscale] else []) ++
  [ Brightness (inject_Z (brightness a) / 100);
    Contrast (inject_Z (contrast a) / 100);
    Saturation (inject_Z (saturation a) / 100);
    Sharpness (inject_Z (sharpness a));
    Noise (inject_Z (noise a)) ].

(** The snapshot [updateAdjustment key value] appends in world [w]. *)
Definition snapshot (key : AdjKey) (value : Z) (w : World) : HistoryEntry.t :=
  {| HistoryEntry.adjustments := set_knob key value (adjustments (store w));
     HistoryEntry.imageData := None;
     HistoryEntry.timestamp := wall w (reads w) |}.

(** What a guarded [updateAdjustment key value] makes of world [w]. *)
Record updated (key : AdjKey) (value : Z) (w w' : World) : Prop := {
  upd_adjustments :
    adjustments (store w') = set_knob key value (adjustments (store w));
  upd_history :
    history (store w') = newest 19 (history (store w)) ++ [snapshot key value w];
  upd_activeImage : activeImage (store w') = activeImage (store w);
  upd_canvas : canvas (store w') = rendered <$> canvas (store w);
  upd_isGrayscale : isGrayscale (store w') = isGrayscale (store w);
  upd_presets : presets (store w') = presets (store w);
  upd_reads : reads w' = S (reads w);
  upd_wall : wall w' = wall w
}.

(** The adjustments [undo] restores: those of the second-to-last entry, or
    the defaults when there is none. *)
Definition previousAdjustments (h : list HistoryEntry.t) : Adjustment :=
  match JS.index h (Z.of_nat (length h) - 2) with
  | Some previousEntry => HistoryEntry.adjustments previousEntry
  | None => DEFAULT_ADJUSTMENTS
  end.

(** [calls.forEach(([key, value]) => get().updateAdjustment(key, value))] *)
Definition runCalls (calls : list (AdjKey * Z)) : M unit :=
  forEach calls (fun kv => updateAdjustment (fst kv) (snd kv)).

(** The snapshots a sequence of calls records, one per call: the stored
    adjustments after that call, stamped with the clock reading of the call.
    [a] is the stored set before the first call and [t] the number of clock
    readings so far. *)
Fixpoint snapshots (clock : nat -> Z) (t : nat) (a : Adjustment)
         (calls : list (AdjKey * Z)) : list HistoryEntry.t :=
  match calls with
  | [] => []
  | (key, value) :: rest =>
      {| HistoryEntry.adjustments := set_knob key value a;
         HistoryEntry.imageData := None;
         HistoryEntry.timestamp := clock t |}
      :: snapshots clock (S t) (set_knob key value a) rest
  end.

(** The stored adjustments after a sequence of calls. *)
Definition replay (a : Adjustment) (calls : list (AdjKey * Z)) : Adjustment :=
  fold_left (fun acc kv => set_knob (fst kv) (snd kv) acc) calls a.

(** The operations of the store, as the UI can issue them. [CropLoaded] is
    the completion of the image load a crop commit started. *)
Inductive Action :=
| SetCanvas (c : Canvas)
| SetActiveImage (image : option ref)
| ToggleDarkMode
| ToggleGrayscale
| ToggleSplitView
| UpdateAdjustment (key : AdjKey) (value : Z)
| ResetAdjustments
| AddHistoryEntry (entry : HistoryEntry.t)
| Undo
| AddPreset (preset : Preset.t)
| ApplyPreset (preset : Preset.t)
| DeletePreset (presetName : string)
| RotateImage (angle : Q)
| CropImage
| ApplyCrop
| CropLoaded (p : Pending)
| DownloadImage.

Definition perform (a : Action) : M unit :=
  match a with
  | SetCanvas c => setCanvas c
  | SetActiveImage image => setActiveImage image
  | ToggleDarkMode => toggleDarkMode
  | ToggleGrayscale => toggleGrayscale
  | ToggleSplitView => toggleSplitView
  | UpdateAdjustment key value => updateAdjustment key value
  | ResetAdjustments => resetAdjustments
  | AddHistoryEntry entry => addHistoryEntry entry
  | Undo => undo
  | AddPreset preset => addPreset preset
  | ApplyPreset preset => applyPreset preset
  | DeletePreset presetName => deletePreset presetName
  | RotateImage angle => rotateImage angle
  | CropImage => cropImage
  | ApplyCrop => applyCrop >> ret tt
  | CropLoaded p => cropLoaded p
  | DownloadImage => downloadImage
  end.

(** The worlds the editor can be in: the store starts in [initialState] and
    changes only through its operations, while the UI components are free to
    create and mutate fabric objects behind its back ([reach_fabric]; what
    they do to the canvas object itself is a [SetCanvas] of the changed
    canvas). *)
Inductive Reachable : World -> Prop :=
| reach_init (w : World) :
    store w = initialState -> Reachable w
| reach_perform (a : Action) (w : World) :
    Reachable w -> Reachable (exec (perform a) w)
| reach_fabric (h : list FabricObject) (w : World) :
    Reachable w -> Reachable (with_heap h w).

(** An operation that leaves knobs and ledger alone. *)
Definition keepsLedger (m : M unit) : Prop :=
  forall w,
    adjustments (store (exec m w)) = adjustments (store w) /\
    history (store (exec m w)) = history (store w).

(** The ledger invariant: at most 20 entries, and while the ledger is empty
    the knobs are still at their defaults. *)
Definition ledgerOK (w : World) : Prop :=
  length (history (store w)) <= 20 /\
  (history (store w) = [] -> adjustments (store w) = DEFAULT_ADJUSTMENTS).

(** *** Sample sessions *)

(** A 200 by 200 upload at the origin, unscaled. *)
Definition sampleImage : Image :=
  {| i_left := 0; i_top := 0; i_width := 200; i_height := 200;
     i_scaleX := 1; i_scaleY := 1; i_angle := 0;
     i_filters := Some []; i_applied := []; i_element := Decoded 0 |}.

(** The canvas showing it. *)
Definition sampleCanvas : Canvas :=
  {| c_objects := [0]; c_active := None; c_zoom := 1; c_renders := 0 |}.

(** A fresh session. *)
Definition freshWorld : World :=
  {| store := initialState; heap := [OImage sampleImage];
     wall := fun n => (1700000000000 + Z.of_nat n)%Z; reads := 0;
     context2d := true; downloads := 0 |}.

(** The session once the canvas is mounted and an image is loaded. *)
Definition sampleWorld : World :=
  exec (perform (SetActiveImage (Some 0)))
       (exec (perform (SetCanvas sampleCanvas)) freshWorld).

(** Three slider moves: the ledger is [A; B; C]. *)
Definition editedWorld : World :=
  exec (runCalls [(KBrightness, 10%Z); (KContrast, 20%Z); (KNoise, 30%Z)])
       sampleWorld.

(** One slider move: a single-entry ledger. *)
Definition onceEditedWorld : World :=
  exec (perform (UpdateAdjustment KSaturation 40)) sampleWorld.




(** An overlay rect over the left half of the image. *)
Definition croppingWorld : World :=
  {| store := with_canvas (Some {| c_objects := [0; 1]; c_active := Some 1;
                                   c_zoom := 1; c_renders := 1 |})
                          (store sampleWorld);
     heap := [ OImage sampleImage;
               ORect {| r_left := 0; r_top := 0; r_width := 100; r_height := 200;
                        r_scaleX := 1; r_scaleY := 1 |} ];
     wall := wall sampleWorld; reads := 0; context2d := true; downloads := 0 |}.

(** Every knob lies in the slider range. *)
Definition inRange (a : Adjustment) : Prop :=
  forall key, (-100 <= knob key a <= 100)%Z.

(** Twenty-five slider moves, brightness 1 to 25. *)
Definition twentyFiveCalls : list (AdjKey * Z) :=
  map (fun n => (KBrightness, Z.of_nat n)) (seq 1 25).

(** [name] is the name of one of the built-in presets. *)
Definition builtInName (name : string) : bool :=
  existsb (fun p => String.eqb (Preset.name p) name) DEFAULT_PRESETS.

(** *** Vocabulary of the further properties *)

(** [undo()] called [n] times in a row. *)
Fixpoint undoTimes (n : nat) : M unit :=
  match n with
  | 0 => ret tt
  | S n' => undo >> undoTimes n'
  end.

(** The newest ledger entry holds the stored knobs (the defaults when the
    ledger is empty). *)
Definition mirrored (w : World) : Prop :=
  match last (history (store w)) with
  | Some e => HistoryEntry.adjustments e = adjustments (store w)
  | None => adjustments (store w) = DEFAULT_ADJUSTMENTS
  end.

Definition AdjKey_eqb (a b : AdjKey) : bool :=
  match a, b with
  | KBrightness, KBrightness | KContrast, KContrast
  | KSaturation, KSaturation | KSharpness, KSharpness
  | KNoise, KNoise => true
  | _, _ => false
  end.

(** The value of the last call on [key] in [calls], if there is one. *)
Fixpoint lastWrite (key : AdjKey) (calls : list (AdjKey * Z)) : option Z :=
  match calls with
  | [] => None
  | (k, v) :: rest =>
      match lastWrite key rest with
      | Some v' => Some v'
      | None => if AdjKey_eqb k key then Some v else None
      end
  end.

(** The overlay rect [cropImage] draws over image [i]. *)
Definition overlayOf (i : Image) : Rect :=
  {| r_left := i_left i; r_top := i_top i;
     r_width := i_width i * i_scaleX i; r_height := i_height i * i_scaleY i;
     r_scaleX := 1; r_scaleY := 1 |}.

(** The canvas after [cropImage] has removed, one by one, the objects of
    [objects] other than [img]. *)
Definition withoutOthers (img : ref) (objects : list ref) (c : Canvas) : Canvas :=
  fold_left (fun acc obj => if Nat.eqb obj img then acc else removed obj acc)
            objects c.

(** The image a crop commit puts on the canvas for overlay rect [r]. *)
Definition croppedImage (r : Rect) (tc : TempCanvas) : Image :=
  {| i_left := r_left r; i_top := r_top r;
     i_width := inject_Z (tc_width tc); i_height := inject_Z (tc_height tc);
     i_scaleX := 1; i_scaleY := 1; i_angle := 0;
     i_filters := Some []; i_applied := [];
     i_element := FromCanvas tc |}.

(** The temporary canvas [applyCrop] draws for image [i] under rect [r]. *)
Definition tempCanvasOf (img : ref) (i : Image) (r : Rect) : TempCanvas :=
  {| tc_width := canvasDimension 300 (r_width r * r_scaleX r);
     tc_height := canvasDimension 150 (r_height r * r_scaleY r);
     tc_drawn :=
       {| d_img := img;
          d_sx := (r_left r - i_left i) / i_scaleX i;
          d_sy := (r_top r - i_top i) / i_scaleY i;
          d_sw := r_width r / i_scaleX i;
          d_sh := r_height r / i_scaleY i;
          d_dx := 0; d_dy := 0;
          d_dw := inject_Z (canvasDimension 300 (r_width r * r_scaleX r));
          d_dh := inject_Z (canvasDimension 150 (r_height r * r_scaleY r)) |} |}.

(** The index of channel [c] of the pixel in column [x] and row [y] of an
    image [width] pixels wide. *)
Definition byteIndex (width x y c : nat) : nat := (y * width + x) * 4 + c.

(** Image data as an [ImageData] object has it: four bytes per pixel, each
    in [0, 255]. *)
Definition wellFormed (d : ImageData) : Prop :=
  length (id_data d) = id_width d * id_height d * 4 /\
  Forall (fun b => (0 <= b <= 255)%Z) (id_data d).

(** Every pixel has the colour of the first one (alpha may differ). *)
Definition uniform (d : ImageData) : Prop :=
  forall p c, p < id_width d * id_height d -> c < 3 ->
              id_data d !! (p * 4 + c) = id_data d !! c.

(** A 3 by 3 image: a bright centre on a dark ground, opaque. *)
Definition spotData : ImageData :=
  {| id_width := 3; id_height := 3;
     id_data := [ 10; 10; 10; 255;  10; 10; 10; 255;  10; 10; 10; 255;
                  10; 10; 10; 255;  200; 100; 50; 255;  10; 10; 10; 255;
                  10; 10; 10; 255;  10; 10; 10; 255;  10; 10; 10; 255 ]%Z |}.

(** A 3 by 3 image of one colour. *)
Definition flatData : ImageData :=
  {| id_width := 3; id_height := 3;
     id_data := concat (replicate 9 [ 40; 80; 120; 255 ]%Z) |}.

(** Every image object shows the filter list it carries: the stack baked by
    its last [applyFilters()] is its current [filters] array. *)
Definition applied (w : World) : Prop :=
  forall k i, imageAt k w = Some i -> i_applied i = default [] (i_filters i).

(** * Properties *)

(** ** Slices of the ledger *)

Lemma slice_minus19 {A : Type} (l : list A) :
  JS.slice l (-19) None = newest 19 l.
Proof.
  unfold JS.slice, JS.relative, newest. simpl.
  destruct (Z.max_spec (Z.of_nat (length l) + -19) 0) as [[Hlt ->] | [Hge ->]].
  - simpl. rewrite take_ge.
    + f_equal. lia.
    + rewrite length_drop. lia.
  - replace (Z.to_nat (Z.of_nat (length l) + -19)) with (length l - 19) by lia.
    rewrite take_ge; [reflexivity|]. rewrite length_drop. lia.
Qed.

Lemma slice_drop_last {A : Type} (l : list A) :
  JS.slice l 0 (Some (-1)%Z) = take (length l - 1) l.
Proof.
  unfold JS.slice, JS.relative. simpl.
  rewrite Z.min_l by lia. simpl. rewrite drop_0. f_equal. lia.
Qed.

Lemma index_second_to_last {A : Type} (l : list A) :
  JS.index l (Z.of_nat (length l) - 2) =
  if Nat.ltb (length l) 2 then None else l !! (length l - 2).
Proof.
  unfold JS.index.
  destruct (Nat.ltb_spec (length l) 2) as [Hlt | Hge].
  - destruct (Z.ltb_spec (Z.of_nat (length l) - 2) 0) as [_ | Hz]; [reflexivity | lia].
  - destruct (Z.ltb_spec (Z.of_nat (length l) - 2) 0) as [Hz | _]; [lia |].
    f_equal. lia.
Qed.

Lemma newest_length {A : Type} (n : nat) (l : list A) :
  length (newest n l) = Nat.min n (length l).
Proof. unfold newest. rewrite length_drop. lia. Qed.

Lemma newest_all {A : Type} (n : nat) (l : list A) :
  length l <= n -> newest n l = l.
Proof.
  intros H. unfold newest. replace (length l - n) with 0 by lia. apply drop_0.
Qed.

Lemma newest_app_r {A : Type} (n : nat) (l k : list A) :
  n <= length k -> newest n (l ++ k) = newest n k.
Proof.
  intros H. unfold newest. rewrite length_app, drop_app_ge by lia.
  f_equal. lia.
Qed.

Lemma newest_snoc {A : Type} (n : nat) (l : list A) (x : A) :
  newest n l ++ [x] = newest (S n) (l ++ [x]).
Proof.
  unfold newest. rewrite length_app. simpl.
  rewrite drop_app_le by lia. f_equal. f_equal. lia.
Qed.

Lemma newest_newest_app {A : Type} (n : nat) (l k : list A) :
  newest n (newest n l ++ k) = newest n (l ++ k).
Proof.
  destruct (Nat.le_gt_cases (length l) n) as [Hle | Hgt].
  - rewrite (newest_all n l) by assumption. reflexivity.
  - rewrite <- (take_drop (length l - n) l) at 2.
    rewrite <- app_assoc.
    fold (newest n l).
    symmetry. apply newest_app_r.
    rewrite length_app, newest_length. lia.
Qed.

(** ** The guard [activeImage && canvas] *)

Lemma updateAdjustment_ready (key : AdjKey) (value : Z) (w : World) :
  ready w -> updated key value w (exec (updateAdjustment key value) w).
Proof.
  intros (img & cv & Hi & Hc).
  unfold updateAdjustment, exec, bind, get. rewrite Hi, Hc. cbn.
  destruct (isGrayscale (store w)); cbn; rewrite ?Hc;
    (split; cbn; rewrite ?slice_minus19, ?Hc; reflexivity).
Qed.

Lemma ready_updated (key : AdjKey) (value : Z) (w w' : World) :
  ready w -> updated key value w w' -> ready w'.
Proof.
  intros (img & cv & Hi & Hc) U. exists img, (rendered cv).
  rewrite (upd_activeImage _ _ _ _ U), (upd_canvas _ _ _ _ U), Hi, Hc. auto.
Qed.

(** The filter list [updateAdjustment] leaves on the active image. *)
Lemma updateAdjustment_filters (key : AdjKey) (value : Z) (w : World)
      (img : ref) (cv : Canvas) (i : Image) :
  activeImage (store w) = Some img -> canvas (store w) = Some cv ->
  imageAt img w = Some i ->
  exists i',
    imageAt img (exec (updateAdjustment key value) w) = Some i' /\
    i_filters i' =
      Some (computeFilterStack (set_knob key value (adjustments (store w)))
                               (isGrayscale (store w))) /\
    i_applied i' =
      computeFilterStack (set_knob key value (adjustments (store w)))
                         (isGrayscale (store w)).
Proof.
  intros Hi Hc Hh.
  unfold updateAdjustment, exec, bind, get. rewrite Hi, Hc. cbn.
  unfold imageAt in *.
  destruct (isGrayscale (store w)); cbn;
    rewrite !list_lookup_alter_eq;
    destruct (heap w !! img) as [[i0 | r] |]; try discriminate;
    cbn; eexists; (split; [reflexivity | split; reflexivity]).
Qed.

Lemma not_ready_updateAdjustment (key : AdjKey) (value : Z) (w : World) :
  activeImage (store w) = None \/ canvas (store w) = None ->
  updateAdjustment key value w = (tt, w).
Proof.
  intros [H | H]; unfold updateAdjustment, bind, get; rewrite H;
    [| destruct (activeImage (store w))]; reflexivity.
Qed.

Lemma not_ready_toggleGrayscale (w : World) :
  activeImage (store w) = None \/ canvas (store w) = None ->
  toggleGrayscale w = (tt, w).
Proof.
  intros [H | H]; unfold toggleGrayscale, bind, get; rewrite H;
    [| destruct (activeImage (store w))]; reflexivity.
Qed.

Lemma not_ready_undo (w : World) :
  activeImage (store w) = None \/ canvas (store w) = None ->
  undo w = (tt, w).
Proof.
  intros [H | H]; unfold undo, bind, get; rewrite H;
    [| destruct (activeImage (store w))]; reflexivity.
Qed.

(** What [toggleGrayscale] does to the active image and the flag. *)
Lemma toggleGrayscale_ready (w : World) (img : ref) (cv : Canvas) (i : Image) :
  activeImage (store w) = Some img -> canvas (store w) = Some cv ->
  imageAt img w = Some i ->
  let w' := exec toggleGrayscale w in
  activeImage (store w') = Some img /\
  canvas (store w') = Some (rendered cv) /\
  isGrayscale (store w') = negb (isGrayscale (store w)) /\
  adjustments (store w') = adjustments (store w) /\
  history (store w') = history (store w) /\
  exists i',
    imageAt img w' = Some i' /\
    i_filters i' =
      (if isGrayscale (store w)
       then List.filter (fun f => negb (isGrayscaleFilter f)) <$> i_filters i
       else (fun old => old ++ [Grayscale]) <$> i_filters i) /\
    i_applied i' = default [] (i_filters i').
Proof.
  intros Hi Hc Hh.
  unfold toggleGrayscale, exec, bind, get. rewrite Hi, Hc. cbn.
  unfold imageAt in *.
  destruct (isGrayscale (store w)); cbn;
    rewrite !list_lookup_alter_eq;
    destruct (heap w !! img) as [[i0 | r] |]; try discriminate;
    injection Hh as ->; cbn; rewrite ?Hc, ?Hi;
    repeat split; eexists; repeat split.
Qed.

(** ** Undo *)

Lemma set_knob_same (key : AdjKey) (a : Adjustment) :
  set_knob key (knob key a) a = a.
Proof. destruct a, key; reflexivity. Qed.

Lemma knob_set_knob (key : AdjKey) (value : Z) (a : Adjustment) :
  knob key (set_knob key value a) = value.
Proof. destruct key; reflexivity. Qed.

Lemma knob_set_knob_other (key key' : AdjKey) (value : Z) (a : Adjustment) :
  key <> key' -> knob key' (set_knob key value a) = knob key' a.
Proof. destruct key, key'; intros H; try reflexivity; congruence. Qed.

(** After its own [set], [undo] hands over to [updateAdjustment]. *)
Lemma undo_unfold (w : World) :
  ready w -> history (store w) <> [] ->
  exec undo w =
  exec (updateAdjustment KBrightness
          (brightness (previousAdjustments (history (store w)))))
       (with_store
          (with_history (take (length (history (store w)) - 1) (history (store w)))
             (with_adjustments (previousAdjustments (history (store w)))
                               (store w)))
          w).
Proof.
  intros (img & cv & Hi & Hc) Hne.
  unfold undo, exec, bind, get at 1. rewrite Hi, Hc.
  destruct (Z.ltb_spec 0 (Z.of_nat (length (history (store w))))) as [_ | Hz].
  - unfold set at 1. cbn -[updateAdjustment JS.slice JS.index].
    rewrite slice_drop_last. reflexivity.
  - destruct (history (store w)); [congruence | simpl in Hz; lia].
Qed.

Lemma undo_ready (w : World) :
  ready w -> history (store w) <> [] ->
  let h := history (store w) in
  let w' := exec undo w in
  adjustments (store w') = previousAdjustments h /\
  history (store w') =
    newest 19 (take (length h - 1) h) ++
    [ {| HistoryEntry.adjustments := previousAdjustments h;
         HistoryEntry.imageData := None;
         HistoryEntry.timestamp := wall w (reads w) |} ].
Proof.
  intros Hr Hne h w'. subst w'. rewrite (undo_unfold w Hr Hne). fold h.
  set (w1 := with_store _ w).
  assert (Hr1 : ready w1).
  { destruct Hr as (img & cv & Hi & Hc). exists img, cv. auto. }
  destruct (updateAdjustment_ready KBrightness
              (brightness (previousAdjustments h)) w1 Hr1) as [Ha Hh _ _ _ _ _ _].
  rewrite Ha, Hh. unfold snapshot. subst w1.
  cbn -[set_knob previousAdjustments newest knob brightness].
  change (brightness (previousAdjustments h))
    with (knob KBrightness (previousAdjustments h)).
  rewrite set_knob_same. auto.
Qed.

Lemma previousAdjustments_snoc2 (pre : list HistoryEntry.t) (b c : HistoryEntry.t) :
  previousAdjustments (pre ++ [b; c]) = HistoryEntry.adjustments b.
Proof.
  unfold previousAdjustments. rewrite index_second_to_last, length_app. simpl.
  destruct (Nat.ltb_spec (length pre + 2) 2) as [H | _]; [lia |].
  replace (length pre + 2 - 2) with (length pre + 0) by lia.
  rewrite lookup_app_r by lia.
  replace (length pre + 0 - length pre) with 0 by lia. reflexivity.
Qed.

Lemma previousAdjustments_short (h : list HistoryEntry.t) :
  length h <= 1 -> previousAdjustments h = DEFAULT_ADJUSTMENTS.
Proof.
  intros H. unfold previousAdjustments. rewrite index_second_to_last.
  destruct (Nat.ltb_spec (length h) 2) as [_ | H2]; [reflexivity | lia].
Qed.

(** ** Sequences of [updateAdjustment] calls *)

Lemma snapshots_length clock t a calls :
  length (snapshots clock t a calls) = length calls.
Proof.
  revert t a. induction calls as [| [key value] rest IH]; intros t a; simpl.
  - reflexivity.
  - rewrite IH. reflexivity.
Qed.

Lemma exec_bind {A B : Type} (m : M A) (k : A -> M B) (w : World) :
  exec (bind m k) w = exec (k (fst (m w))) (exec m w).
Proof. unfold exec, bind. destruct (m w). reflexivity. Qed.

Lemma runCalls_cons (key : AdjKey) (value : Z) (rest : list (AdjKey * Z)) (w : World) :
  exec (runCalls ((key, value) :: rest)) w =
  exec (runCalls rest) (exec (updateAdjustment key value) w).
Proof. unfold runCalls. simpl. apply exec_bind. Qed.

(** Running calls with the guard satisfied: the guard stays satisfied and
    the stored set is the replay of the calls. *)
Lemma runCalls_ready (calls : list (AdjKey * Z)) (w : World) :
  ready w ->
  let w' := exec (runCalls calls) w in
  ready w' /\
  adjustments (store w') = replay (adjustments (store w)) calls /\
  isGrayscale (store w') = isGrayscale (store w) /\
  presets (store w') = presets (store w).
Proof.
  revert w. induction calls as [| [key value] rest IH]; intros w Hr w'.
  - subst w'. cbn. auto.
  - subst w'. rewrite runCalls_cons.
    pose proof (updateAdjustment_ready key value w Hr) as U.
    set (w1 := exec (updateAdjustment key value) w) in *.
    assert (Hr1 : ready w1) by (eapply ready_updated; eassumption).
    destruct U as [Ha _ _ _ Hg Hp _ _].
    destruct (IH w1 Hr1) as (Hr' & Ha' & Hg' & Hp').
    split; [assumption |]. split; [| split].
    + rewrite Ha', Ha. reflexivity.
    + congruence.
    + congruence.
Qed.

(** The ledger after the calls: the 20 newest of the old ledger followed by
    one snapshot per call (with no call at all the ledger is left as it is,
    hence the side condition). *)
Lemma runCalls_history (calls : list (AdjKey * Z)) (w : World) :
  ready w -> (calls = [] -> length (history (store w)) <= 20) ->
  history (store (exec (runCalls calls) w)) =
    newest 20 (history (store w) ++
               snapshots (wall w) (reads w) (adjustments (store w)) calls).
Proof.
  revert w. induction calls as [| [key value] rest IH]; intros w Hr Hlen.
  - cbn. rewrite app_nil_r, newest_all by auto. reflexivity.
  - rewrite runCalls_cons.
    pose proof (updateAdjustment_ready key value w Hr) as U.
    set (w1 := exec (updateAdjustment key value) w) in *.
    assert (Hr1 : ready w1) by (eapply ready_updated; eassumption).
    destruct U as [Ha Hh _ _ _ _ Ht Hw].
    assert (Hlen1 : length (history (store w1)) <= 20).
    { rewrite Hh, length_app, newest_length. cbn [length]. lia. }
    rewrite (IH w1 Hr1 (fun _ => Hlen1)).
    rewrite Hh, Ha, Ht, Hw. simpl snapshots. unfold snapshot.
    rewrite newest_snoc, newest_newest_app, <- app_assoc. reflexivity.
Qed.

(** ** The editor as a transition system *)

Lemma forEach_keepsLedger {A : Type} (l : list A) (f : A -> M unit) :
  (forall x, keepsLedger (f x)) -> keepsLedger (forEach l f).
Proof.
  intros Hf. induction l as [| x l IH]; intros w; simpl.
  - split; reflexivity.
  - rewrite exec_bind. destruct (IH (exec (f x) w)) as [-> ->]. apply Hf.
Qed.

Lemma onCanvas_keepsLedger (f : Canvas -> Canvas) : keepsLedger (onCanvas f).
Proof. intros w. split; reflexivity. Qed.

Lemma updateImage_keepsLedger (img : ref) (f : Image -> Image) :
  keepsLedger (updateImage img f).
Proof. intros w. split; reflexivity. Qed.

Lemma toggleGrayscale_keepsLedger : keepsLedger toggleGrayscale.
Proof.
  intros w. unfold toggleGrayscale, exec, bind, get.
  destruct (activeImage (store w)), (canvas (store w)), (isGrayscale (store w));
    split; reflexivity.
Qed.

Lemma rotateImage_keepsLedger (angle : Q) : keepsLedger (rotateImage angle).
Proof.
  intros w. unfold rotateImage, exec, bind, get.
  destruct (activeImage (store w)), (canvas (store w)); split; reflexivity.
Qed.

Lemma cropImage_keepsLedger : keepsLedger cropImage.
Proof.
  intros w. unfold cropImage. rewrite exec_bind.
  change (exec get w) with w. change (fst (get w)) with (store w).
  destruct (activeImage (store w)) as [img |] eqn:Hi;
    [destruct (canvas (store w)) as [cv |] eqn:Hc |];
    try (split; reflexivity).
  rewrite exec_bind.
  set (m := forEach _ _).
  assert (Hm : keepsLedger m).
  { apply forEach_keepsLedger. intros x. destruct (Nat.eqb x img).
    - intros w0. split; reflexivity.
    - apply onCanvas_keepsLedger. }
  destruct (Hm w) as [<- <-].
  generalize (exec m w). intros w1. unfold exec.
  destruct (imageAt img w1); split; reflexivity.
Qed.

Lemma applyCrop_world (w : World) : snd (applyCrop w) = w.
Proof.
  unfold applyCrop.
  destruct (canvas (store w)) as [cv |]; [| reflexivity].
  destruct (activeImage (store w)) as [img |]; [| reflexivity].
  destruct (findRect w (c_objects cv)) as [[rect cropRect] |]; [| reflexivity].
  destruct (context2d w); [| reflexivity]. simpl.
  destruct (imageAt img w); reflexivity.
Qed.

Lemma cropLoaded_keepsLedger (p : Pending) : keepsLedger (cropLoaded p).
Proof.
  intros w. unfold cropLoaded, exec.
  destruct (rectAt (p_rect p) w); split; reflexivity.
Qed.

Lemma keepsLedger_ledgerOK (m : M unit) (w : World) :
  keepsLedger m -> ledgerOK w -> ledgerOK (exec m w).
Proof. intros Hm Hp. unfold ledgerOK. destruct (Hm w) as [-> ->]. exact Hp. Qed.

Lemma ready_dec (w : World) :
  ready w \/ (activeImage (store w) = None \/ canvas (store w) = None).
Proof.
  unfold ready.
  destruct (activeImage (store w)) as [img |]; [| auto].
  destruct (canvas (store w)) as [cv |]; [| auto].
  left. eauto.
Qed.

Lemma runCalls_not_ready (calls : list (AdjKey * Z)) (w : World) :
  activeImage (store w) = None \/ canvas (store w) = None ->
  exec (runCalls calls) w = w.
Proof.
  intros H. induction calls as [| [key value] rest IH].
  - reflexivity.
  - rewrite runCalls_cons. unfold exec at 2.
    rewrite (not_ready_updateAdjustment key value w H). exact IH.
Qed.

(** A ledger that ends with a fresh entry after keeping 19 old ones. *)
Lemma appended_ledgerOK (w : World) (h : list HistoryEntry.t) (e : HistoryEntry.t) :
  history (store w) = newest 19 h ++ [e] -> ledgerOK w.
Proof.
  intros Hh. split.
  - rewrite Hh, length_app, newest_length. cbn [length]. lia.
  - rewrite Hh. intros He. destruct (newest 19 h); discriminate.
Qed.

Lemma perform_ledgerOK (a : Action) (w : World) :
  ledgerOK w -> ledgerOK (exec (perform a) w).
Proof.
  intros Hp.
  destruct a; simpl perform;
    try (apply keepsLedger_ledgerOK; [intros w0; split; reflexivity | exact Hp]).
  - apply keepsLedger_ledgerOK; [apply toggleGrayscale_keepsLedger | exact Hp].
  - destruct (ready_dec w) as [Hr | Hn].
    + destruct (updateAdjustment_ready key value w Hr) as [_ Hh _ _ _ _ _ _].
      eapply appended_ledgerOK, Hh.
    + unfold exec. rewrite (not_ready_updateAdjustment key value w Hn). exact Hp.
  - unfold resetAdjustments, exec, bind, get.
    destruct (activeImage (store w)), (canvas (store w)); try exact Hp.
    split; [apply Hp | reflexivity].
  - eapply appended_ledgerOK. cbn. rewrite slice_minus19. reflexivity.
  - destruct (ready_dec w) as [Hr | Hn].
    + destruct (history (store w)) as [| e h] eqn:Hh.
      * destruct Hr as (img & cv & Hi & Hc).
        unfold undo, exec, bind, get. rewrite Hi, Hc, Hh. exact Hp.
      * assert (Hne : history (store w) <> []) by (rewrite Hh; discriminate).
        destruct (undo_ready w Hr Hne) as [_ Hu].
        eapply appended_ledgerOK, Hu.
    + unfold exec. rewrite (not_ready_undo w Hn). exact Hp.
  - change (applyPreset preset) with (runCalls (entries (Preset.adjustments preset))).
    destruct (ready_dec w) as [Hr | Hn].
    + pose proof (runCalls_history (entries (Preset.adjustments preset)) w Hr)
        as Hh.
      specialize (Hh ltac:(discriminate)).
      assert (Hl : length (history (store (exec (runCalls (entries (Preset.adjustments preset))) w)))
                   = Nat.min 20 (length (history (store w)) + 5)).
      { rewrite Hh, newest_length, length_app, snapshots_length. reflexivity. }
      split; [lia |].
      intros He. rewrite He in Hl. cbn [length] in Hl. lia.
    + rewrite (runCalls_not_ready _ w Hn). exact Hp.
  - apply keepsLedger_ledgerOK; [apply rotateImage_keepsLedger | exact Hp].
  - apply keepsLedger_ledgerOK; [apply cropImage_keepsLedger | exact Hp].
  - rewrite exec_bind. unfold exec. rewrite applyCrop_world. exact Hp.
  - apply keepsLedger_ledgerOK; [apply cropLoaded_keepsLedger | exact Hp].
  - unfold downloadImage, exec. destruct (canvas (store w)); exact Hp.
Qed.

Lemma Reachable_ledgerOK (w : World) : Reachable w -> ledgerOK w.
Proof.
  induction 1 as [w Hs | a w _ IH | h w _ IH].
  - unfold ledgerOK. rewrite Hs. split; [simpl; lia | reflexivity].
  - apply perform_ledgerOK, IH.
  - exact IH.
Qed.

(** ** Facts used by the claims *)

Lemma sampleWorld_ready : ready sampleWorld.
Proof. exists 0, sampleCanvas. split; reflexivity. Qed.

Lemma sampleWorld_Reachable : Reachable sampleWorld.
Proof. do 2 apply reach_perform. apply reach_init. reflexivity. Qed.

Lemma replay_inRange (a : Adjustment) (calls : list (AdjKey * Z)) :
  inRange a ->
  Forall (fun kv => (-100 <= snd kv <= 100)%Z) calls ->
  inRange (replay a calls).
Proof.
  intros Ha Hc. revert a Ha.
  induction Hc as [| [key value] rest Hv _ IH]; intros a Ha; simpl.
  - exact Ha.
  - apply IH. intros key'. destruct key, key'; simpl in *;
      first [exact Hv | apply (Ha KBrightness) | apply (Ha KContrast)
            | apply (Ha KSaturation) | apply (Ha KSharpness) | apply (Ha KNoise)].
Qed.

Lemma Reachable_runCalls (calls : list (AdjKey * Z)) (w : World) :
  Reachable w -> Reachable (exec (runCalls calls) w).
Proof.
  revert w. induction calls as [| [key value] rest IH]; intros w Hw.
  - exact Hw.
  - rewrite runCalls_cons. apply IH.
    apply (reach_perform (UpdateAdjustment key value)), Hw.
Qed.

Lemma replay_entries (a b : Adjustment) : replay a (entries b) = b.
Proof. destruct b. reflexivity. Qed.

Lemma findRect_rectAt (w : World) (objects : list ref) (rect : ref) (r : Rect) :
  findRect w objects = Some (rect, r) -> rectAt rect w = Some r.
Proof.
  induction objects as [| o rest IH]; simpl; [discriminate |].
  destruct (rectAt o w) as [r0 |] eqn:Ho.
  - intros E. injection E as -> ->. exact Ho.
  - exact IH.
Qed.


(** ** The claims *)

(** C1 (the code departs from it): with ledger [... A; B; C], the guard
    satisfied and the ledger within its bound, [undo()] does set the
    adjustments to B's, but the ledger it leaves is not [... A; B]: the
    [updateAdjustment] call it uses to reapply the filters appends a fresh
    snapshot of B's adjustments, so the ledger is [... A; B; B'] and keeps
    its length. *)
Theorem undo_reappends_snapshot
        (w : World) (pre : list HistoryEntry.t) (a b c : HistoryEntry.t) :
  ready w ->
  history (store w) = pre ++ [a; b; c] ->
  length pre + 3 <= 20 ->
  let w' := exec undo w in
  adjustments (store w') = HistoryEntry.adjustments b /\
  history (store w') =
    pre ++ [a; b; {| HistoryEntry.adjustments := HistoryEntry.adjustments b;
                     HistoryEntry.imageData := None;
                     HistoryEntry.timestamp := wall w (reads w) |}] /\
  history (store w') <> pre ++ [a; b].
Proof.
  intros Hr Hh Hlen w'.
  assert (Hne : history (store w) <> []).
  { rewrite Hh. destruct pre; discriminate. }
  destruct (undo_ready w Hr Hne) as [Ha Hu]. fold w' in Ha, Hu.
  rewrite Hh in Ha, Hu.
  assert (Hp : previousAdjustments (pre ++ [a; b; c]) = HistoryEntry.adjustments b).
  { change (pre ++ [a; b; c]) with (pre ++ [a] ++ [b; c]).
    rewrite app_assoc. apply previousAdjustments_snoc2. }
  assert (Ht : take (length (pre ++ [a; b; c]) - 1) (pre ++ [a; b; c]) = pre ++ [a; b]).
  { change (pre ++ [a; b; c]) with (pre ++ [a; b] ++ [c]).
    rewrite app_assoc. rewrite take_app_length'; [reflexivity |].
    rewrite !length_app. simpl. lia. }
  rewrite Hp in Ha, Hu. rewrite Ht in Hu.
  rewrite newest_all in Hu by (rewrite length_app; simpl; lia).
  split; [exact Ha |]. split.
  - rewrite Hu, <- app_assoc. reflexivity.
  - rewrite Hu. intros E. apply (f_equal (@length _)) in E.
    rewrite !length_app in E. simpl in E. lia.
Qed.

Lemma undo_reappends_snapshot_witness :
  adjustments (store (exec undo editedWorld)) =
    {| brightness := 10; contrast := 20; saturation := 0; sharpness := 0; noise := 0 |} /\
  length (history (store (exec undo editedWorld))) = 3.
Proof.
  destruct (undo_reappends_snapshot editedWorld []
              {| HistoryEntry.adjustments :=
                   {| brightness := 10; contrast := 0; saturation := 0;
                      sharpness := 0; noise := 0 |};
                 HistoryEntry.imageData := None;
                 HistoryEntry.timestamp := 1700000000000 |}
              {| HistoryEntry.adjustments :=
                   {| brightness := 10; contrast := 20; saturation := 0;
                      sharpness := 0; noise := 0 |};
                 HistoryEntry.imageData := None;
                 HistoryEntry.timestamp := 1700000000001 |}
              {| HistoryEntry.adjustments :=
                   {| brightness := 10; contrast := 20; saturation := 0;
                      sharpness := 0; noise := 30 |};
                 HistoryEntry.imageData := None;
                 HistoryEntry.timestamp := 1700000000002 |})
    as (Ha & Hh & _).
  - exists 0, {| c_objects := [0]; c_active := None; c_zoom := 1; c_renders := 3 |}.
    split; reflexivity.
  - reflexivity.
  - simpl. lia.
  - split; [exact Ha |]. rewrite Hh. reflexivity.
Defined.

(** C2, counterexample: on a loaded image [updateAdjustment('brightness', 150)]
    leaves the stored brightness at 150, which is neither 100 nor inside
    [-100, 100], and [updateAdjustment('contrast', -300)] leaves the stored
    contrast at -300, not -100. *)
Lemma updateAdjustment_does_not_clamp :
  let w1 := exec (updateAdjustment KBrightness 150) sampleWorld in
  let w2 := exec (updateAdjustment KContrast (-300)) sampleWorld in
  brightness (adjustments (store w1)) = 150%Z /\
  brightness (adjustments (store w1)) <> 100%Z /\
  ~ (-100 <= brightness (adjustments (store w1)) <= 100)%Z /\
  contrast (adjustments (store w2)) = (-300)%Z /\
  contrast (adjustments (store w2)) <> (-100)%Z.
Proof.
  cbn. split; [reflexivity |]. split; [discriminate |]. split; [lia |].
  split; [reflexivity | discriminate].
Qed.

(** C2, as amended: with the guard satisfied [updateAdjustment(key, value)]
    stores [value] itself under [key], whatever its size and whatever the
    knobs held, and leaves the other knobs alone (so 150 is stored as 150 and
    -300 as -300); the range is the callers' business: from a set whose knobs
    lie in [-100, 100], any sequence of calls whose values lie in [-100, 100]
    leaves every knob in [-100, 100]. *)
Theorem updateAdjustment_stores_value
        (w : World) (key : AdjKey) (value : Z) (calls : list (AdjKey * Z)) :
  (ready w ->
   let w' := exec (updateAdjustment key value) w in
   knob key (adjustments (store w')) = value /\
   forall key', key <> key' ->
     knob key' (adjustments (store w')) = knob key' (adjustments (store w))) /\
  (inRange (adjustments (store w)) ->
   Forall (fun kv => (-100 <= snd kv <= 100)%Z) calls ->
   inRange (adjustments (store (exec (runCalls calls) w)))).
Proof.
  split.
  - intros Hr w'.
    destruct (updateAdjustment_ready key value w Hr) as [Hk _ _ _ _ _ _ _].
    fold w' in Hk. rewrite Hk. split; [apply knob_set_knob |].
    intros key' Hne. apply knob_set_knob_other, Hne.
  - intros Ha Hc. destruct (ready_dec w) as [Hr | Hn].
    + destruct (runCalls_ready calls w Hr) as (_ & -> & _).
      apply replay_inRange; assumption.
    + rewrite (runCalls_not_ready calls w Hn). exact Ha.
Qed.

Lemma updateAdjustment_stores_value_witness :
  knob KBrightness
       (adjustments (store (exec (updateAdjustment KBrightness 150) sampleWorld)))
  = 150%Z /\
  knob KContrast
       (adjustments
          (store (exec (updateAdjustment KContrast (-300))
                       (exec (updateAdjustment KBrightness 150) sampleWorld))))
  = (-300)%Z /\
  inRange (adjustments (store (exec (runCalls [(KBrightness, 100%Z); (KNoise, (-100)%Z)])
                                    sampleWorld))).
Proof.
  split; [| split].
  - apply (updateAdjustment_stores_value sampleWorld KBrightness 150 []).
    exists 0, sampleCanvas. split; reflexivity.
  - apply (updateAdjustment_stores_value
             (exec (updateAdjustment KBrightness 150) sampleWorld)
             KContrast (-300) []).
    exists 0, {| c_objects := [0]; c_active := None; c_zoom := 1; c_renders := 1 |}.
    split; reflexivity.
  - apply (updateAdjustment_stores_value sampleWorld KBrightness 0
             [(KBrightness, 100%Z); (KNoise, (-100)%Z)]).
    + intros key. destruct key; simpl; lia.
    + repeat constructor; simpl; lia.
Defined.

(** C3 (the code departs from it): a stack built by [updateAdjustment]
    starts with Grayscale when the flag is set, but [toggleGrayscale] does
    not recompute: switching the flag on after an [updateAdjustment] pushes
    Grayscale onto the end of the existing list, so the stack that is applied
    has Grayscale after Brightness, Contrast, Saturation, Sharpness and
    Noise, and differs from the one [updateAdjustment] builds for the same
    state. *)
Theorem toggleGrayscale_appends_grayscale
        (w : World) (img : ref) (cv : Canvas) (i : Image)
        (key : AdjKey) (value : Z) :
  activeImage (store w) = Some img ->
  canvas (store w) = Some cv ->
  imageAt img w = Some i ->
  isGrayscale (store w) = false ->
  let w1 := exec (updateAdjustment key value) w in
  let w2 := exec toggleGrayscale w1 in
  let knobs := computeFilterStack (adjustments (store w1)) false in
  isGrayscale (store w2) = true /\
  adjustments (store w2) = adjustments (store w1) /\
  (exists i2, imageAt img w2 = Some i2 /\
              i_filters i2 = Some (knobs ++ [Grayscale]) /\
              i_applied i2 = knobs ++ [Grayscale]) /\
  knobs ++ [Grayscale] <> computeFilterStack (adjustments (store w2)) true /\
  (exists i3, imageAt img (exec (updateAdjustment key value) w2) = Some i3 /\
              i_applied i3 = Grayscale :: knobs).
Proof.
  intros Hi Hc Hh Hg w1 w2 knobs.
  assert (Hr : ready w) by (exists img, cv; auto).
  destruct (updateAdjustment_ready key value w Hr)
    as [Ha1 _ Hi1 Hc1 Hg1 _ _ _].
  fold w1 in Ha1, Hi1, Hc1, Hg1.
  rewrite Hi in Hi1. rewrite Hc in Hc1. rewrite Hg in Hg1.
  cbn [fmap option_fmap option_map] in Hc1.
  destruct (updateAdjustment_filters key value w img cv i Hi Hc Hh)
    as (i1 & Hh1 & Hf1 & _).
  fold w1 in Hh1. rewrite Hg, <- Ha1 in Hf1.
  destruct (toggleGrayscale_ready w1 img (rendered cv) i1 Hi1 Hc1 Hh1)
    as (Hi2 & Hc2 & Hg2 & Ha2 & _ & i2 & Hh2 & Hf2 & Hp2).
  fold w2 in Hi2, Hc2, Hg2, Ha2, Hh2.
  rewrite Hg1 in Hg2, Hf2. rewrite Hf1 in Hf2. cbn [fmap option_fmap option_map] in Hf2.
  split; [exact Hg2 |]. split; [exact Ha2 |]. split; [| split].
  - exists i2. rewrite Hp2, Hf2. auto.
  - rewrite Ha2. discriminate.
  - destruct (updateAdjustment_filters key value w2 img _ i2 Hi2 Hc2 Hh2)
      as (i3 & Hh3 & _ & Hp3).
    exists i3. split; [exact Hh3 |].
    rewrite Hp3, Hg2, Ha2, Ha1.
    replace (set_knob key value (set_knob key value (adjustments (store w))))
      with (set_knob key value (adjustments (store w)))
      by (destruct key; reflexivity).
    subst knobs. rewrite Ha1. reflexivity.
Qed.

Lemma toggleGrayscale_appends_grayscale_witness :
  (i_applied <$> imageAt 0 (exec toggleGrayscale
                              (exec (updateAdjustment KBrightness 10) sampleWorld)))
  = Some [ Brightness (inject_Z 10 / 100); Contrast (inject_Z 0 / 100);
           Saturation (inject_Z 0 / 100); Sharpness (inject_Z 0);
           Noise (inject_Z 0); Grayscale ].
Proof.
  destruct (toggleGrayscale_appends_grayscale sampleWorld 0 sampleCanvas sampleImage
              KBrightness 10 eq_refl eq_refl eq_refl eq_refl)
    as (_ & _ & (i2 & Hh & _ & Hp) & _).
  rewrite Hh. cbn [fmap option_fmap option_map]. rewrite Hp. reflexivity.
Defined.

(** C4: the ledger of a reachable world never holds more than 20 entries,
    and eviction is oldest-first: from every world with the guard
    satisfied, 25 [updateAdjustment] calls in a row leave a ledger of exactly
    20 entries, namely the snapshots of the last 20 calls in call order (the
    snapshots of the first five calls and everything older are gone). *)
Theorem ledger_keeps_20_newest
        (w0 w : World) (calls : list (AdjKey * Z)) :
  Reachable w0 ->
  ready w ->
  length calls = 25 ->
  let w' := exec (runCalls calls) w in
  let taken := snapshots (wall w) (reads w) (adjustments (store w)) calls in
  length (history (store w0)) <= 20 /\
  length (history (store w')) = 20 /\
  history (store w') = drop 5 taken /\
  (forall entry,
     history (store (exec (addHistoryEntry entry) w)) =
     newest 19 (history (store w)) ++ [entry]).
Proof.
  intros H0 Hr Hlen w' taken.
  assert (Ht : length taken = 25) by (subst taken; rewrite snapshots_length; exact Hlen).
  assert (Hh : history (store w') = drop 5 taken).
  { subst w'. rewrite runCalls_history; [| exact Hr | intros ->; discriminate].
    fold taken. rewrite newest_app_r by lia.
    unfold newest. rewrite Ht. reflexivity. }
  split; [apply Reachable_ledgerOK, H0 |].
  split; [rewrite Hh, length_drop; lia |].
  split; [exact Hh |].
  intros entry. cbn. apply f_equal2; [apply slice_minus19 | reflexivity].
Qed.

Lemma ledger_keeps_20_newest_witness :
  length (history (store (exec (runCalls twentyFiveCalls) sampleWorld))) = 20 /\
  map (fun e => brightness (HistoryEntry.adjustments e))
      (history (store (exec (runCalls twentyFiveCalls) sampleWorld)))
  = map Z.of_nat (seq 6 20).
Proof.
  destruct (ledger_keeps_20_newest editedWorld sampleWorld twentyFiveCalls)
    as (_ & Hl & Hh & _).
  - apply Reachable_runCalls, sampleWorld_Reachable.
  - exists 0, sampleCanvas. split; reflexivity.
  - reflexivity.
  - split; [exact Hl |]. rewrite Hh. reflexivity.
Defined.

(** C5: in a reachable world with the guard satisfied, [undo()] on an empty
    ledger and [undo()] on a single-entry ledger both end with the
    adjustments at the defaults, all five knobs 0. (On the single entry the
    missing second-to-last entry is replaced by the defaults; on the empty
    ledger [undo()] changes nothing, and the knobs of a reachable world with
    an empty ledger are the defaults already.) *)
Theorem undo_short_ledger_defaults (w : World) :
  Reachable w ->
  ready w ->
  length (history (store w)) <= 1 ->
  adjustments (store (exec undo w)) = DEFAULT_ADJUSTMENTS /\
  (forall key, knob key (adjustments (store (exec undo w))) = 0%Z) /\
  (history (store w) = [] -> exec undo w = w).
Proof.
  intros Hw Hr Hlen.
  assert (Hd : adjustments (store (exec undo w)) = DEFAULT_ADJUSTMENTS).
  { destruct (history (store w)) as [| e h] eqn:Hh.
    - destruct Hr as (img & cv & Hi & Hc).
      unfold undo, exec, bind, get. rewrite Hi, Hc, Hh. cbn.
      apply (Reachable_ledgerOK w Hw), Hh.
    - assert (Hne : history (store w) <> []) by (rewrite Hh; discriminate).
      destruct (undo_ready w Hr Hne) as [-> _].
      apply previousAdjustments_short. rewrite Hh. exact Hlen. }
  split; [exact Hd |]. split.
  - intros key. rewrite Hd. destruct key; reflexivity.
  - intros Hh. destruct Hr as (img & cv & Hi & Hc).
    unfold undo, exec, bind, get. rewrite Hi, Hc, Hh. reflexivity.
Qed.

Lemma undo_short_ledger_defaults_witness :
  saturation (adjustments (store onceEditedWorld)) = 40%Z /\
  adjustments (store (exec undo onceEditedWorld)) = DEFAULT_ADJUSTMENTS /\
  adjustments (store (exec undo sampleWorld)) = DEFAULT_ADJUSTMENTS.
Proof.
  split; [reflexivity |]. split.
  - apply (undo_short_ledger_defaults onceEditedWorld).
    + apply reach_perform, sampleWorld_Reachable.
    + exists 0, {| c_objects := [0]; c_active := None; c_zoom := 1; c_renders := 1 |}.
      split; reflexivity.
    + simpl. lia.
  - apply (undo_short_ledger_defaults sampleWorld).
    + apply sampleWorld_Reachable.
    + exists 0, sampleCanvas. split; reflexivity.
    + simpl. lia.
Defined.

(** C6: with the guard satisfied, [applyPreset(preset)] is the five calls
    [updateAdjustment(key, value)], one per knob of the preset, in order; the
    ledger afterwards is the bounded ledger with five snapshots appended,
    one per knob (so its last five entries are these, and nothing is evicted
    when at most 15 entries were there); the stored adjustments equal the
    preset's; and a preset added with [addPreset] is stored as it is, so
    applying it gives back its adjustments. *)
Theorem applyPreset_replays_knobs (w : World) (preset : Preset.t) :
  ready w ->
  let w' := exec (applyPreset preset) w in
  let a := Preset.adjustments preset in
  let five := snapshots (wall w) (reads w) (adjustments (store w)) (entries a) in
  applyPreset preset =
    (updateAdjustment KBrightness (brightness a) >>
     updateAdjustment KContrast (contrast a) >>
     updateAdjustment KSaturation (saturation a) >>
     updateAdjustment KSharpness (sharpness a) >>
     updateAdjustment KNoise (noise a) >> ret tt) /\
  length five = 5 /\
  history (store w') = newest 20 (history (store w) ++ five) /\
  newest 5 (history (store w')) = five /\
  (length (history (store w)) <= 15 -> history (store w') = history (store w) ++ five) /\
  adjustments (store w') = a /\
  last (presets (store (exec (addPreset preset) w))) = Some preset /\
  adjustments (store (exec (addPreset preset >> applyPreset preset) w)) = a.
Proof.
  intros Hr w' a five.
  assert (H5 : length five = 5) by (subst five; apply snapshots_length).
  assert (Hh : history (store w') = newest 20 (history (store w) ++ five)).
  { subst w'. change (applyPreset preset) with (runCalls (entries a)).
    apply runCalls_history; [exact Hr | discriminate]. }
  destruct (runCalls_ready (entries a) w Hr) as (_ & Ha & _).
  change (runCalls (entries a)) with (applyPreset preset) in Ha. fold w' in Ha.
  rewrite replay_entries in Ha.
  split; [reflexivity |]. split; [exact H5 |]. split; [exact Hh |].
  split; [| split; [| split; [exact Ha | split]]].
  - rewrite Hh. unfold newest at 2.
    unfold newest at 1. rewrite drop_drop, length_drop.
    rewrite length_app, H5.
    replace (length (history (store w)) + 5 - 20 +
             (length (history (store w)) + 5 - (length (history (store w)) + 5 - 20) - 5))
      with (length (history (store w))) by lia.
    apply drop_app_length.
  - intros H15. rewrite Hh. apply newest_all. rewrite length_app, H5. lia.
  - cbn. apply last_snoc.
  - rewrite exec_bind.
    set (w1 := exec (addPreset preset) w).
    assert (Hr1 : ready w1).
    { destruct Hr as (img & cv & Hi & Hc). exists img, cv. auto. }
    destruct (runCalls_ready (entries a) w1 Hr1) as (_ & Ha1 & _).
    change (runCalls (entries a)) with (applyPreset preset) in Ha1.
    rewrite replay_entries in Ha1. exact Ha1.
Qed.

Lemma applyPreset_replays_knobs_witness :
  adjustments (store (exec (applyPreset
                              {| Preset.name := "X";
                                 Preset.adjustments :=
                                   {| brightness := 10; contrast := -20;
                                      saturation := 30; sharpness := 5;
                                      noise := 15 |} |})
                           editedWorld))
  = {| brightness := 10; contrast := -20; saturation := 30; sharpness := 5;
       noise := 15 |} /\
  length (history (store (exec (applyPreset
                              {| Preset.name := "X";
                                 Preset.adjustments :=
                                   {| brightness := 10; contrast := -20;
                                      saturation := 30; sharpness := 5;
                                      noise := 15 |} |})
                           editedWorld))) = 8.
Proof.
  destruct (applyPreset_replays_knobs editedWorld
              {| Preset.name := "X";
                 Preset.adjustments :=
                   {| brightness := 10; contrast := -20; saturation := 30;
                      sharpness := 5; noise := 15 |} |})
    as (_ & _ & _ & _ & Hh & Ha & _).
  - exists 0, {| c_objects := [0]; c_active := None; c_zoom := 1; c_renders := 3 |}.
    split; reflexivity.
  - split; [exact Ha |]. rewrite Hh by (vm_compute; lia). vm_compute. reflexivity.
Defined.




(** C8, counterexample: in a fresh session [deletePreset("Vintage")] removes
    the built-in preset Vintage; the registry is not left unchanged. *)
Lemma deletePreset_removes_Vintage :
  presets (store (exec (deletePreset "Vintage") freshWorld)) <>
  presets (store freshWorld) /\
  map Preset.name (presets (store (exec (deletePreset "Vintage") freshWorld))) =
  ["Dramatic"; "Classic B&W"]%string.
Proof. split; [discriminate | reflexivity]. Qed.

(** C8, as amended: [deletePreset(name)] removes from the registry, whatever
    it holds, every preset called [name], built-in or not, and leaves the
    others in order; the protection of the built-ins is in the preset
    selector, which shows no delete button for a preset carrying a built-in
    name, so a delete issued from there leaves the world as it is for such a
    preset and never removes a preset carrying a built-in name. *)
Theorem deletePreset_unprotected
        (w : World) (presetName : string) (clicked : Preset.t) :
  presets (store (exec (deletePreset presetName) w)) =
    List.filter (fun p => negb (String.eqb (Preset.name p) presetName))
                (presets (store w)) /\
  (builtInName (Preset.name clicked) = true -> exec (clickDelete clicked) w = w) /\
  (forall kept,
     builtInName (Preset.name kept) = true ->
     In kept (presets (store w)) ->
     In kept (presets (store (exec (clickDelete clicked) w)))).
Proof.
  split; [reflexivity |].
  unfold clickDelete, deleteButtonShown. fold (builtInName (Preset.name clicked)).
  split.
  - intros ->. reflexivity.
  - intros kept Hb Hin.
    destruct (builtInName (Preset.name clicked)) eqn:Hc; [exact Hin |].
    cbn. apply filter_In. split; [exact Hin |].
    destruct (String.eqb_spec (Preset.name kept) (Preset.name clicked)) as [E | _];
      [| reflexivity].
    rewrite E in Hb. congruence.
Qed.

Lemma deletePreset_unprotected_witness :
  map Preset.name
      (presets (store (exec (deletePreset "Dramatic")
                            (exec (deletePreset "Vintage")
                                  (exec (deletePreset "Classic B&W") freshWorld))))) =
  [] /\
  In {| Preset.name := "Vintage";
        Preset.adjustments := {| brightness := -10; contrast := 10;
                                 saturation := -20; sharpness := 0; noise := 20 |} |}
     (presets (store (exec (clickDelete {| Preset.name := "Mine";
                                           Preset.adjustments := DEFAULT_ADJUSTMENTS |})
                           (exec (addPreset {| Preset.name := "Mine";
                                               Preset.adjustments := DEFAULT_ADJUSTMENTS |})
                                 freshWorld)))).
Proof.
  split.
  - destruct (deletePreset_unprotected
                (exec (deletePreset "Vintage")
                      (exec (deletePreset "Classic B&W") freshWorld))
                "Dramatic"
                {| Preset.name := "Mine"; Preset.adjustments := DEFAULT_ADJUSTMENTS |})
      as (Hd & _).
    rewrite Hd. reflexivity.
  - apply (deletePreset_unprotected
             (exec (addPreset {| Preset.name := "Mine";
                                 Preset.adjustments := DEFAULT_ADJUSTMENTS |})
                   freshWorld)
             "Dramatic"
             {| Preset.name := "Mine"; Preset.adjustments := DEFAULT_ADJUSTMENTS |}).
    + reflexivity.
    + simpl. left. reflexivity.
Defined.

(** C9, counterexample: [addPreset] with a name of two spaces, empty after
    trimming, appends the preset; the list is not left unchanged. *)
Lemma addPreset_accepts_blank_name :
  JS.trim "  " = EmptyString /\
  presets (store (exec (addPreset {| Preset.name := "  ";
                                     Preset.adjustments := DEFAULT_ADJUSTMENTS |})
                       freshWorld)) <>
  presets (store freshWorld).
Proof. split; [reflexivity | discriminate]. Qed.

(** C9, as amended: [addPreset(preset)] appends the preset whatever its
    name and touches nothing else, without raising; the empty-name check is
    the caller's: [handleSavePreset] with a text that is empty after trimming
    calls nothing, and leaves the world and the text field as they are. *)
Theorem addPreset_appends_unchecked
        (w : World) (preset : Preset.t) (newPresetName : string) :
  JS.trim newPresetName = EmptyString ->
  addPreset preset w = (tt, with_store (with_presets (presets (store w) ++ [preset])
                                                     (store w)) w) /\
  handleSavePreset newPresetName w = (newPresetName, w).
Proof.
  intros Ht. split; [reflexivity |].
  unfold handleSavePreset. rewrite Ht. reflexivity.
Qed.

Lemma addPreset_appends_unchecked_witness :
  handleSavePreset " " freshWorld = (" "%string, freshWorld) /\
  map Preset.name
      (presets (store (exec (addPreset {| Preset.name := EmptyString;
                                          Preset.adjustments := DEFAULT_ADJUSTMENTS |})
                            freshWorld))) =
  ["Vintage"; "Dramatic"; "Classic B&W"; EmptyString]%string.
Proof.
  destruct (addPreset_appends_unchecked freshWorld
              {| Preset.name := EmptyString; Preset.adjustments := DEFAULT_ADJUSTMENTS |}
              " " eq_refl) as [Ha Hs].
  split; [exact Hs |]. unfold exec. rewrite Ha. reflexivity.
Defined.

(** C10: with no active image or no canvas, [updateAdjustment],
    [toggleGrayscale] and [undo] change nothing at all: the world after the
    call is the world before it, in particular the stored adjustments, the
    grayscale flag and the ledger. *)
Theorem guarded_operations_noop (w : World) (key : AdjKey) (value : Z) :
  activeImage (store w) = None \/ canvas (store w) = None ->
  exec (updateAdjustment key value) w = w /\
  exec toggleGrayscale w = w /\
  exec undo w = w.
Proof.
  intros H. unfold exec.
  rewrite (not_ready_updateAdjustment key value w H),
          (not_ready_toggleGrayscale w H), (not_ready_undo w H).
  auto.
Qed.

Lemma guarded_operations_noop_witness :
  exec (updateAdjustment KBrightness 50) freshWorld = freshWorld /\
  exec toggleGrayscale freshWorld = freshWorld /\
  exec undo freshWorld = freshWorld.
Proof.
  apply (guarded_operations_noop freshWorld KBrightness 50).
  left. reflexivity.
Defined.

(** * Further properties of the code *)

(** ** Undo, reset and the ledger *)

Lemma last_newest {A : Type} (n : nat) (l : list A) :
  0 < n -> last (newest n l) = last l.
Proof.
  intros Hn. unfold newest.
  rewrite !last_lookup, length_drop, lookup_drop. f_equal. lia.
Qed.

Lemma previousAdjustments_snoc (l : list HistoryEntry.t) (x : HistoryEntry.t) :
  previousAdjustments (l ++ [x]) =
  match last l with
  | Some e => HistoryEntry.adjustments e
  | None => DEFAULT_ADJUSTMENTS
  end.
Proof.
  destruct l as [| y l'] using rev_ind.
  - reflexivity.
  - rewrite last_snoc, <- app_assoc. apply previousAdjustments_snoc2.
Qed.

(** What [undo] keeps: the guard, the flag, the presets, the clock. *)
Lemma undo_frame (w : World) :
  ready w ->
  ready (exec undo w) /\
  isGrayscale (store (exec undo w)) = isGrayscale (store w) /\
  presets (store (exec undo w)) = presets (store w) /\
  activeImage (store (exec undo w)) = activeImage (store w) /\
  wall (exec undo w) = wall w.
Proof.
  intros Hr. destruct (history (store w)) as [| e h] eqn:Hh.
  - destruct Hr as (img & cv & Hi & Hc).
    assert (E : exec undo w = w).
    { unfold undo, exec, bind, get. rewrite Hi, Hc, Hh. reflexivity. }
    rewrite E. repeat split; try reflexivity. exists img, cv. auto.
  - assert (Hne : history (store w) <> []) by (rewrite Hh; discriminate).
    rewrite (undo_unfold w Hr Hne). set (w1 := with_store _ w).
    assert (Hr1 : ready w1).
    { destruct Hr as (img & cv & Hi & Hc). exists img, cv. auto. }
    pose proof (updateAdjustment_ready KBrightness
                  (brightness (previousAdjustments (history (store w)))) w1 Hr1) as U.
    split; [eapply ready_updated; eassumption |].
    destruct U as [_ _ Hi' _ Hg Hp _ Hw]. rewrite Hg, Hp, Hi', Hw. auto.
Qed.

(** X1: with the guard satisfied, [undo()] right after an
    [updateAdjustment] call restores the knobs of the ledger's previous
    newest entry (the defaults when the ledger was empty); when that entry
    mirrors the stored knobs, as it does after every [updateAdjustment], the
    slider move is taken back exactly. *)
Theorem undo_takes_back_one_update (w : World) (key : AdjKey) (value : Z) :
  ready w ->
  let w1 := exec (updateAdjustment key value) w in
  adjustments (store (exec undo w1)) =
    match last (history (store w)) with
    | Some e => HistoryEntry.adjustments e
    | None => DEFAULT_ADJUSTMENTS
    end /\
  (mirrored w -> adjustments (store (exec undo w1)) = adjustments (store w)) /\
  mirrored w1 /\
  mirrored (exec undo w1).
Proof.
  intros Hr w1.
  pose proof (updateAdjustment_ready key value w Hr) as U. fold w1 in U.
  assert (Hr1 : ready w1) by (eapply ready_updated; eassumption).
  destruct U as [Ha Hh _ _ _ _ _ _].
  assert (Hne : history (store w1) <> []).
  { rewrite Hh. destruct (newest 19 _); discriminate. }
  destruct (undo_ready w1 Hr1 Hne) as [Hua Huh].
  rewrite Hh, previousAdjustments_snoc, last_newest in Hua by lia.
  split; [exact Hua | split; [| split]].
  - intros Hm. rewrite Hua. unfold mirrored in Hm.
    destruct (last (history (store w))); congruence.
  - unfold mirrored. rewrite Hh, last_snoc, Ha. reflexivity.
  - unfold mirrored. rewrite Huh, last_snoc. cbn.
    destruct (undo_ready w1 Hr1 Hne) as [-> _]. reflexivity.
Qed.

Lemma undo_takes_back_one_update_witness :
  adjustments (store (exec undo (exec (updateAdjustment KSharpness 55) editedWorld))) =
  adjustments (store editedWorld) /\
  adjustments (store (exec undo (exec (updateAdjustment KSharpness 55)
                                      (exec resetAdjustments editedWorld)))) =
  {| brightness := 10; contrast := 20; saturation := 0; sharpness := 0; noise := 30 |}.
Proof.
  split.
  - destruct (undo_takes_back_one_update editedWorld KSharpness 55) as (_ & H & _).
    + exists 0, {| c_objects := [0]; c_active := None; c_zoom := 1; c_renders := 3 |}.
      split; reflexivity.
    + apply H. vm_compute. reflexivity.
  - destruct (undo_takes_back_one_update (exec resetAdjustments editedWorld)
                KSharpness 55) as (H & _).
    + exists 0, {| c_objects := [0]; c_active := None; c_zoom := 1; c_renders := 4 |}.
      split; vm_compute; reflexivity.
    + rewrite H. vm_compute. reflexivity.
Defined.

Lemma undo_step (w : World) (pre : list HistoryEntry.t) (b c : HistoryEntry.t) :
  ready w ->
  history (store w) = pre ++ [b; c] ->
  length pre + 2 <= 20 ->
  adjustments (store (exec undo w)) = HistoryEntry.adjustments b /\
  exists c', history (store (exec undo w)) = pre ++ [b; c'].
Proof.
  intros Hr Hh Hlen.
  assert (Hne : history (store w) <> []).
  { rewrite Hh. destruct pre; discriminate. }
  destruct (undo_ready w Hr Hne) as [Ha Hu].
  rewrite Hh in Ha, Hu. rewrite previousAdjustments_snoc2 in Ha, Hu.
  split; [exact Ha |]. eexists. rewrite Hu.
  change (pre ++ [b; c]) with (pre ++ [b] ++ [c]).
  rewrite app_assoc, take_app_length' by (rewrite !length_app; simpl; lia).
  rewrite newest_all by (rewrite length_app; simpl; lia).
  rewrite <- app_assoc. reflexivity.
Qed.

(** X2: repeated undo does not walk back through the ledger. With ledger
    [... A; B; C] (at most 20 entries) and the guard satisfied, any number
    [n >= 1] of [undo()] calls in a row leaves the knobs at B's and the ledger
    at its length: A is never restored. *)
Theorem undo_never_goes_past_one_step
        (n : nat) (w : World) (pre : list HistoryEntry.t) (b c : HistoryEntry.t) :
  ready w ->
  history (store w) = pre ++ [b; c] ->
  length pre + 2 <= 20 ->
  1 <= n ->
  adjustments (store (exec (undoTimes n) w)) = HistoryEntry.adjustments b /\
  length (history (store (exec (undoTimes n) w))) = length (history (store w)).
Proof.
  intros Hr Hh Hlen Hn. destruct n as [| n]; [lia |]. clear Hn.
  revert w c Hr Hh. induction n as [| n IH]; intros w c Hr Hh.
  - cbn [undoTimes]. rewrite exec_bind. change (exec (ret tt) ?x) with x.
    destruct (undo_step w pre b c Hr Hh Hlen) as (Ha & c' & Hh').
    split; [exact Ha |]. rewrite Hh', Hh, !length_app. reflexivity.
  - change (undoTimes (S (S n))) with (undo >> undoTimes (S n)).
    rewrite exec_bind.
    destruct (undo_step w pre b c Hr Hh Hlen) as (_ & c' & Hh').
    destruct (undo_frame w Hr) as (Hr' & _).
    destruct (IH (exec undo w) c' Hr' Hh') as [Ha Hl].
    split; [exact Ha |]. rewrite Hl, Hh', Hh, !length_app. reflexivity.
Qed.

Lemma undo_never_goes_past_one_step_witness :
  adjustments (store (exec (undoTimes 3) editedWorld)) =
  {| brightness := 10; contrast := 20; saturation := 0; sharpness := 0; noise := 0 |} /\
  length (history (store (exec (undoTimes 3) editedWorld))) = 3.
Proof.
  destruct (undo_never_goes_past_one_step 3 editedWorld
              [ {| HistoryEntry.adjustments :=
                     {| brightness := 10; contrast := 0; saturation := 0;
                        sharpness := 0; noise := 0 |};
                   HistoryEntry.imageData := None;
                   HistoryEntry.timestamp := 1700000000000 |} ]
              {| HistoryEntry.adjustments :=
                   {| brightness := 10; contrast := 20; saturation := 0;
                      sharpness := 0; noise := 0 |};
                 HistoryEntry.imageData := None;
                 HistoryEntry.timestamp := 1700000000001 |}
              {| HistoryEntry.adjustments :=
                   {| brightness := 10; contrast := 20; saturation := 0;
                      sharpness := 0; noise := 30 |};
                 HistoryEntry.imageData := None;
                 HistoryEntry.timestamp := 1700000000002 |})
    as [Ha Hl].
  - exists 0, {| c_objects := [0]; c_active := None; c_zoom := 1; c_renders := 3 |}.
    split; reflexivity.
  - reflexivity.
  - simpl. lia.
  - lia.
  - split; [exact Ha |]. rewrite Hl. reflexivity.
Defined.

(** X3: [undo()] re-renders what it restores. With the guard satisfied and a
    non-empty ledger, the filter list left on the active image, and applied
    to it, is the stack for the restored knobs and the current grayscale
    flag, built from scratch; the flag and the presets are not touched, so a
    grayscale toggle is never undone. *)
Theorem undo_rebuilds_filter_stack
        (w : World) (img : ref) (cv : Canvas) (i : Image) :
  activeImage (store w) = Some img ->
  canvas (store w) = Some cv ->
  imageAt img w = Some i ->
  history (store w) <> [] ->
  let w' := exec undo w in
  let stack := computeFilterStack (previousAdjustments (history (store w)))
                                  (isGrayscale (store w)) in
  (exists i', imageAt img w' = Some i' /\
              i_filters i' = Some stack /\ i_applied i' = stack) /\
  isGrayscale (store w') = isGrayscale (store w) /\
  presets (store w') = presets (store w).
Proof.
  intros Hi Hc Hh Hne w' stack.
  assert (Hr : ready w) by (exists img, cv; auto).
  destruct (undo_frame w Hr) as (_ & Hg & Hp & _).
  split; [| split; assumption].
  subst w'. rewrite (undo_unfold w Hr Hne). set (w1 := with_store _ w).
  destruct (updateAdjustment_filters KBrightness
              (brightness (previousAdjustments (history (store w))))
              w1 img cv i Hi Hc Hh) as (i' & Hh' & Hf & Ha).
  exists i'. split; [exact Hh' |].
  subst w1. cbn [store with_store adjustments with_history with_adjustments isGrayscale] in Hf, Ha.
  change (brightness (previousAdjustments (history (store w))))
    with (knob KBrightness (previousAdjustments (history (store w)))) in Hf, Ha.
  rewrite set_knob_same in Hf, Ha. auto.
Qed.

Lemma undo_rebuilds_filter_stack_witness :
  (i_applied <$> imageAt 0 (exec undo editedWorld)) =
  Some [ Brightness (inject_Z 10 / 100); Contrast (inject_Z 20 / 100);
         Saturation (inject_Z 0 / 100); Sharpness (inject_Z 0);
         Noise (inject_Z 0) ].
Proof.
  destruct (undo_rebuilds_filter_stack editedWorld 0
              {| c_objects := [0]; c_active := None; c_zoom := 1; c_renders := 3 |}
              {| i_left := 0; i_top := 0; i_width := 200; i_height := 200;
                 i_scaleX := 1; i_scaleY := 1; i_angle := 0;
                 i_filters := Some (computeFilterStack
                                      {| brightness := 10; contrast := 20;
                                         saturation := 0; sharpness := 0;
                                         noise := 30 |} false);
                 i_applied := computeFilterStack
                                {| brightness := 10; contrast := 20;
                                   saturation := 0; sharpness := 0;
                                   noise := 30 |} false;
                 i_element := Decoded 0 |}
              eq_refl eq_refl eq_refl)
    as ((i' & Hh & _ & Ha) & _).
  - vm_compute. discriminate.
  - rewrite Hh. cbn [fmap option_fmap option_map]. rewrite Ha. reflexivity.
Defined.

(** X4: [resetAdjustments()] with the guard satisfied puts every knob at
    its default, clears the grayscale flag and empties the filter list of
    the active image, but records nothing: the ledger is as before, so on a
    ledger that is not empty a following [undo()] restores what it would
    have restored without the reset, not the knobs the reset wiped; on an
    empty ledger the following [undo()] does nothing. *)
Theorem resetAdjustments_is_not_recorded
        (w : World) (img : ref) (cv : Canvas) :
  activeImage (store w) = Some img ->
  canvas (store w) = Some cv ->
  let w' := exec resetAdjustments w in
  adjustments (store w') = DEFAULT_ADJUSTMENTS /\
  isGrayscale (store w') = false /\
  history (store w') = history (store w) /\
  (forall i, imageAt img w = Some i ->
             exists i', imageAt img w' = Some i' /\
                        i_filters i' = Some [] /\ i_applied i' = []) /\
  (history (store w) <> [] ->
   adjustments (store (exec undo w')) = adjustments (store (exec undo w)) /\
   history (store (exec undo w')) = history (store (exec undo w))) /\
  (history (store w) = [] -> exec undo w' = w').
Proof.
  intros Hi Hc w'.
  assert (Hr : ready w) by (exists img, cv; auto).
  assert (Hs : store w' =
               with_isGrayscale false
                 (with_adjustments DEFAULT_ADJUSTMENTS
                    (with_canvas (Some (rendered cv)) (store w)))).
  { subst w'. unfold resetAdjustments, exec, bind, get. rewrite Hi, Hc. cbn.
    rewrite Hc. reflexivity. }
  assert (Hc' : reads w' = reads w /\ wall w' = wall w).
  { subst w'. unfold resetAdjustments, exec, bind, get. rewrite Hi, Hc.
    split; reflexivity. }
  assert (Hr' : ready w').
  { exists img, (rendered cv). rewrite Hs. cbn. auto. }
  assert (Hh' : history (store w') = history (store w)) by (rewrite Hs; reflexivity).
  split; [rewrite Hs; reflexivity |]. split; [rewrite Hs; reflexivity |].
  split; [exact Hh' |]. split; [| split].
  - intros i Hh. subst w'. unfold resetAdjustments, exec, bind, get.
    rewrite Hi, Hc. cbn.
    unfold imageAt in *. cbn. rewrite !list_lookup_alter_eq.
    destruct (heap w !! img) as [[i0 | r] |]; try discriminate.
    cbn. eexists. repeat split.
  - intros Hne.
    assert (Hne' : history (store w') <> []) by (rewrite Hh'; exact Hne).
    destruct (undo_ready w' Hr' Hne') as [-> ->].
    destruct (undo_ready w Hr Hne) as [-> ->].
    destruct Hc' as [-> ->]. rewrite Hh'. auto.
  - intros He. rewrite <- Hh' in He.
    destruct Hr' as (img' & cv' & Hi' & Hcv').
    unfold undo, exec, bind, get. rewrite Hi', Hcv', He. reflexivity.
Qed.

Lemma resetAdjustments_is_not_recorded_witness :
  adjustments (store (exec resetAdjustments editedWorld)) = DEFAULT_ADJUSTMENTS /\
  adjustments (store (exec undo (exec resetAdjustments editedWorld))) =
  {| brightness := 10; contrast := 20; saturation := 0; sharpness := 0; noise := 0 |} /\
  exec undo (exec resetAdjustments sampleWorld) = exec resetAdjustments sampleWorld.
Proof.
  destruct (resetAdjustments_is_not_recorded editedWorld 0
              {| c_objects := [0]; c_active := None; c_zoom := 1; c_renders := 3 |}
              eq_refl eq_refl)
    as (Ha & _ & _ & _ & Hu & _).
  destruct (resetAdjustments_is_not_recorded sampleWorld 0 sampleCanvas
              eq_refl eq_refl)
    as (_ & _ & _ & _ & _ & He).
  split; [exact Ha |]. split.
  - destruct Hu as [Hu _]; [vm_compute; discriminate |].
    rewrite Hu. vm_compute. reflexivity.
  - apply He. reflexivity.
Defined.

(** ** Grayscale, call sequences and presets *)

Lemma filter_snoc_grayscale (fs : list Filter) :
  Forall (fun f => isGrayscaleFilter f = false) fs ->
  List.filter (fun f => negb (isGrayscaleFilter f)) (fs ++ [Grayscale]) = fs.
Proof.
  induction 1 as [| f fs Hf _ IH]; simpl.
  - reflexivity.
  - rewrite Hf. simpl. rewrite IH. reflexivity.
Qed.

(** X5: toggling grayscale on and off again is a round trip when the
    filter list held no Grayscale filter to begin with (as after an
    [updateAdjustment] with the flag off): flag, filter list and applied
    stack are as before, and knobs and ledger are never touched by the
    toggle. *)
Theorem toggleGrayscale_twice_restores
        (w : World) (img : ref) (cv : Canvas) (i : Image) (fs : list Filter) :
  activeImage (store w) = Some img ->
  canvas (store w) = Some cv ->
  imageAt img w = Some i ->
  isGrayscale (store w) = false ->
  i_filters i = Some fs ->
  Forall (fun f => isGrayscaleFilter f = false) fs ->
  let w2 := exec toggleGrayscale (exec toggleGrayscale w) in
  isGrayscale (store w2) = false /\
  (exists i2, imageAt img w2 = Some i2 /\
              i_filters i2 = Some fs /\ i_applied i2 = fs) /\
  adjustments (store w2) = adjustments (store w) /\
  history (store w2) = history (store w).
Proof.
  intros Hi Hc Hh Hg Hf Hfs w2.
  destruct (toggleGrayscale_ready w img cv i Hi Hc Hh)
    as (Hi1 & Hc1 & Hg1 & Ha1 & Hl1 & i1 & Hh1 & Hf1 & _).
  rewrite Hg in Hg1, Hf1. rewrite Hf in Hf1. cbn in Hg1, Hf1.
  destruct (toggleGrayscale_ready _ img _ i1 Hi1 Hc1 Hh1)
    as (_ & _ & Hg2 & Ha2 & Hl2 & i2 & Hh2 & Hf2 & Hp2).
  fold w2 in Hg2, Ha2, Hl2, Hh2.
  rewrite Hg1 in Hg2, Hf2. rewrite Hf1 in Hf2. cbn in Hg2, Hf2.
  rewrite filter_snoc_grayscale in Hf2 by assumption.
  split; [exact Hg2 |]. split; [| split; congruence].
  exists i2. rewrite Hp2, Hf2. auto.
Qed.

Lemma toggleGrayscale_twice_restores_witness :
  (i_filters <$> imageAt 0 (exec toggleGrayscale (exec toggleGrayscale onceEditedWorld)))
  = Some (Some (computeFilterStack
                  {| brightness := 0; contrast := 0; saturation := 40;
                     sharpness := 0; noise := 0 |} false)).
Proof.
  destruct (toggleGrayscale_twice_restores onceEditedWorld 0
              {| c_objects := [0]; c_active := None; c_zoom := 1; c_renders := 1 |}
              {| i_left := 0; i_top := 0; i_width := 200; i_height := 200;
                 i_scaleX := 1; i_scaleY := 1; i_angle := 0;
                 i_filters := Some (computeFilterStack
                                      {| brightness := 0; contrast := 0;
                                         saturation := 40; sharpness := 0;
                                         noise := 0 |} false);
                 i_applied := computeFilterStack
                                {| brightness := 0; contrast := 0;
                                   saturation := 40; sharpness := 0;
                                   noise := 0 |} false;
                 i_element := Decoded 0 |}
              (computeFilterStack
                 {| brightness := 0; contrast := 0; saturation := 40;
                    sharpness := 0; noise := 0 |} false)
              eq_refl eq_refl eq_refl eq_refl eq_refl)
    as (_ & (i2 & Hh & Hf & _) & _).
  - repeat constructor.
  - rewrite Hh. cbn [fmap option_fmap option_map]. rewrite Hf. reflexivity.
Defined.

Lemma AdjKey_eqb_eq (a b : AdjKey) : AdjKey_eqb a b = true <-> a = b.
Proof. destruct a, b; simpl; split; intros H; congruence. Qed.

Lemma replay_lastWrite (key : AdjKey) (calls : list (AdjKey * Z)) (a : Adjustment) :
  knob key (replay a calls) = default (knob key a) (lastWrite key calls).
Proof.
  revert a. induction calls as [| [k v] rest IH]; intros a.
  - reflexivity.
  - unfold replay in *. simpl. rewrite IH.
    destruct (lastWrite key rest) as [v' |]; [reflexivity |]. simpl.
    destruct (AdjKey_eqb k key) eqn:E.
    + apply AdjKey_eqb_eq in E. subst k. apply knob_set_knob.
    + apply knob_set_knob_other. intros ->.
      assert (AdjKey_eqb key key = true) by (apply AdjKey_eqb_eq; reflexivity).
      congruence.
Qed.

(** X6: in a sequence of [updateAdjustment] calls the last write wins, knob
    by knob: with the guard satisfied, each knob ends at the value of the last
    call that named it, and a knob no call named keeps its value. The order
    of calls on different knobs does not matter for the stored knobs. *)
Theorem runCalls_last_write_wins
        (w : World) (calls : list (AdjKey * Z)) (key : AdjKey) :
  ready w ->
  knob key (adjustments (store (exec (runCalls calls) w))) =
  default (knob key (adjustments (store w))) (lastWrite key calls).
Proof.
  intros Hr. destruct (runCalls_ready calls w Hr) as (_ & -> & _).
  apply replay_lastWrite.
Qed.

Lemma runCalls_last_write_wins_witness :
  brightness (adjustments (store (exec (runCalls [ (KBrightness, 5%Z); (KNoise, 7%Z);
                                                   (KBrightness, 9%Z) ])
                                       sampleWorld))) = 9%Z.
Proof.
  apply (runCalls_last_write_wins sampleWorld
           [ (KBrightness, 5%Z); (KNoise, 7%Z); (KBrightness, 9%Z) ] KBrightness).
  exists 0, sampleCanvas. split; reflexivity.
Defined.

Lemma runCalls_filters (calls : list (AdjKey * Z)) (w : World)
      (img : ref) (cv : Canvas) (i : Image) :
  activeImage (store w) = Some img ->
  canvas (store w) = Some cv ->
  imageAt img w = Some i ->
  calls <> [] ->
  exists i',
    imageAt img (exec (runCalls calls) w) = Some i' /\
    i_filters i' = Some (computeFilterStack (replay (adjustments (store w)) calls)
                                            (isGrayscale (store w))) /\
    i_applied i' = computeFilterStack (replay (adjustments (store w)) calls)
                                      (isGrayscale (store w)).
Proof.
  revert w cv i. induction calls as [| [key value] rest IH]; intros w cv i Hi Hc Hh Hne.
  - congruence.
  - rewrite runCalls_cons.
    destruct (updateAdjustment_filters key value w img cv i Hi Hc Hh)
      as (i1 & Hh1 & Hf1 & Ha1).
    assert (Hr : ready w) by (exists img, cv; auto).
    destruct (updateAdjustment_ready key value w Hr) as [Ha _ Hi1 Hc1 Hg _ _ _].
    rewrite Hi in Hi1. rewrite Hc in Hc1. cbn in Hc1.
    destruct rest as [| c rest'].
    + exists i1. cbn. auto.
    + destruct (IH _ _ i1 Hi1 Hc1 Hh1) as (i' & Hh' & Hf' & Ha'); [discriminate |].
      exists i'. rewrite Hh', Hf', Ha', Ha, Hg. auto.
Qed.

(** X7: after [applyPreset(preset)] with the guard satisfied, the filter
    list of the active image, and the stack applied to it, is the one for the
    preset's knobs and the current grayscale flag: Grayscale first when the
    flag is set, then Brightness, Contrast, Saturation, Sharpness and Noise
    with the preset's values; the flag itself is not part of a preset and
    stays. *)
Theorem applyPreset_filter_stack
        (w : World) (img : ref) (cv : Canvas) (i : Image) (preset : Preset.t) :
  activeImage (store w) = Some img ->
  canvas (store w) = Some cv ->
  imageAt img w = Some i ->
  let w' := exec (applyPreset preset) w in
  let stack := computeFilterStack (Preset.adjustments preset)
                                  (isGrayscale (store w)) in
  (exists i', imageAt img w' = Some i' /\
              i_filters i' = Some stack /\ i_applied i' = stack) /\
  isGrayscale (store w') = isGrayscale (store w).
Proof.
  intros Hi Hc Hh w' stack.
  assert (Hr : ready w) by (exists img, cv; auto).
  change (applyPreset preset) with (runCalls (entries (Preset.adjustments preset))) in w'.
  split.
  - destruct (runCalls_filters (entries (Preset.adjustments preset)) w img cv i Hi Hc Hh)
      as (i' & Hh' & Hf & Ha); [discriminate |].
    rewrite replay_entries in Hf, Ha. exists i'. auto.
  - destruct (runCalls_ready (entries (Preset.adjustments preset)) w Hr)
      as (_ & _ & Hg & _). exact Hg.
Qed.

Lemma applyPreset_filter_stack_witness :
  (i_applied <$> imageAt 0
     (exec (applyPreset {| Preset.name := "Vintage";
                           Preset.adjustments :=
                             {| brightness := -10; contrast := 10;
                                saturation := -20; sharpness := 0;
                                noise := 20 |} |})
           sampleWorld))
  = Some [ Brightness (inject_Z (-10) / 100); Contrast (inject_Z 10 / 100);
           Saturation (inject_Z (-20) / 100); Sharpness (inject_Z 0);
           Noise (inject_Z 20) ].
Proof.
  destruct (applyPreset_filter_stack sampleWorld 0 sampleCanvas sampleImage
              {| Preset.name := "Vintage";
                 Preset.adjustments :=
                   {| brightness := -10; contrast := 10; saturation := -20;
                      sharpness := 0; noise := 20 |} |}
              eq_refl eq_refl eq_refl)
    as ((i' & Hh & _ & Ha) & _).
  rewrite Hh. cbn [fmap option_fmap option_map]. rewrite Ha. reflexivity.
Defined.

(** X8: the guard [activeImage && canvas] also fronts the other image
    operations: with no active image or no canvas, [resetAdjustments],
    [applyPreset], [rotateImage], [cropImage] and a crop commit return
    without changing anything (no knob reset, no overlay rect, no pending
    image load). *)
Theorem unguarded_operations_noop
        (w : World) (preset : Preset.t) (angle : Q) :
  activeImage (store w) = None \/ canvas (store w) = None ->
  exec resetAdjustments w = w /\
  exec (applyPreset preset) w = w /\
  exec (rotateImage angle) w = w /\
  exec cropImage w = w /\
  applyCrop w = (None, w) /\
  exec commitCrop w = w.
Proof.
  intros H.
  assert (Ha : applyCrop w = (None, w)).
  { unfold applyCrop. destruct H as [H | H]; rewrite H;
      [destruct (canvas (store w)) |]; reflexivity. }
  split; [| split; [| split; [| split; [| split]]]].
  - unfold resetAdjustments, exec, bind, get.
    destruct H as [H | H]; rewrite H; [| destruct (activeImage (store w))]; reflexivity.
  - apply (runCalls_not_ready (entries (Preset.adjustments preset)) w H).
  - unfold rotateImage, exec, bind, get.
    destruct H as [H | H]; rewrite H; [| destruct (activeImage (store w))]; reflexivity.
  - unfold cropImage, exec, bind, get.
    destruct H as [H | H]; rewrite H; [| destruct (activeImage (store w))]; reflexivity.
  - exact Ha.
  - unfold commitCrop, exec, bind. rewrite Ha. reflexivity.
Qed.

Lemma unguarded_operations_noop_witness :
  exec resetAdjustments freshWorld = freshWorld /\
  exec cropImage freshWorld = freshWorld.
Proof.
  destruct (unguarded_operations_noop freshWorld
              {| Preset.name := "Dramatic"; Preset.adjustments := DEFAULT_ADJUSTMENTS |}
              90 (or_introl eq_refl)) as (H1 & _ & _ & H4 & _).
  split; assumption.
Defined.

Lemma filter_all {A : Type} (f : A -> bool) (l : list A) :
  Forall (fun x => f x = true) l -> List.filter f l = l.
Proof.
  induction 1 as [| x l Hx _ IH]; simpl; [reflexivity |].
  rewrite Hx, IH. reflexivity.
Qed.

(** X9: [deletePreset(name)] leaves no preset called [name], however many
    carried it, keeps every other preset in order, and is idempotent; and when
    no preset is called [name], adding one under that name and deleting it
    again gives back the registry as it was. *)
Theorem deletePreset_round_trip
        (w : World) (presetName : string) (a : Adjustment) (other : Preset.t) :
  Forall (fun p => Preset.name p <> presetName) (presets (store w)) ->
  let remaining w0 := presets (store (exec (deletePreset presetName) w0)) in
  remaining (exec (addPreset {| Preset.name := presetName;
                                Preset.adjustments := a |}) w) =
    presets (store w) /\
  remaining (exec (addPreset {| Preset.name := presetName; Preset.adjustments := a |})
               (exec (addPreset {| Preset.name := presetName;
                                   Preset.adjustments := a |}) w)) =
    presets (store w) /\
  (forall w0, Forall (fun p => Preset.name p <> presetName) (remaining w0)) /\
  (forall w0, remaining (exec (deletePreset presetName) w0) = remaining w0) /\
  (forall w0, Preset.name other <> presetName ->
              In other (presets (store w0)) -> In other (remaining w0)).
Proof.
  intros Hf remaining.
  assert (Hk : List.filter (fun p => negb (String.eqb (Preset.name p) presetName))
                           (presets (store w)) = presets (store w)).
  { apply filter_all. eapply Forall_impl; [exact Hf |].
    intros p Hp. simpl in Hp. apply negb_true_iff, String.eqb_neq, Hp. }
  split; [| split; [| split; [| split]]].
  - subst remaining. cbn. rewrite List.filter_app, Hk. simpl.
    rewrite String.eqb_refl. simpl. apply app_nil_r.
  - subst remaining. cbn. rewrite !List.filter_app, Hk. simpl.
    rewrite String.eqb_refl. simpl. rewrite !app_nil_r. reflexivity.
  - intros w0. subst remaining. cbn. apply Forall_forall. intros p Hp.
    apply list_elem_of_In, filter_In in Hp. destruct Hp as [_ Hp].
    apply negb_true_iff, String.eqb_neq in Hp. exact Hp.
  - intros w0. subst remaining. cbn.
    apply filter_all, Forall_forall. intros p Hp.
    apply list_elem_of_In, filter_In in Hp. apply Hp.
  - intros w0 Hne Hin. subst remaining. cbn. apply filter_In. split; [exact Hin |].
    apply negb_true_iff, String.eqb_neq, Hne.
Qed.

Lemma deletePreset_round_trip_witness :
  presets (store (exec (deletePreset "Mine")
                       (exec (addPreset {| Preset.name := "Mine";
                                           Preset.adjustments := DEFAULT_ADJUSTMENTS |})
                             freshWorld))) = DEFAULT_PRESETS.
Proof.
  apply (deletePreset_round_trip freshWorld "Mine" DEFAULT_ADJUSTMENTS
           {| Preset.name := "Vintage"; Preset.adjustments := DEFAULT_ADJUSTMENTS |}).
  repeat constructor; discriminate.
Defined.

(** X10: saving and re-applying a preset is a round trip on the knobs. When
    the typed name is not blank, [handleSavePreset] appends a preset with the
    name as typed (untrimmed) and the knobs stored at that moment, and empties
    the text field; when it is blank, nothing is saved and the field is kept.
    The knobs are left alone by the save, and after any later
    [updateAdjustment] calls, applying the preset of the knobs stored at the
    save leaves the stored knobs at those saved, in every world: with the
    guard unsatisfied neither the calls nor the preset move them. *)
Theorem saved_preset_restores_knobs
        (w : World) (newPresetName : string) (calls : list (AdjKey * Z)) :
  let saved := {| Preset.name := newPresetName;
                  Preset.adjustments := adjustments (store w) |} in
  let w1 := exec (handleSavePreset newPresetName) w in
  (JS.truthy (JS.trim newPresetName) = true ->
   fst (handleSavePreset newPresetName w) = EmptyString /\
   presets (store w1) = presets (store w) ++ [saved]) /\
  (JS.truthy (JS.trim newPresetName) = false ->
   fst (handleSavePreset newPresetName w) = newPresetName /\ w1 = w) /\
  adjustments (store w1) = adjustments (store w) /\
  adjustments (store (exec (applyPreset saved) (exec (runCalls calls) w1))) =
    adjustments (store w).
Proof.
  intros saved w1.
  assert (Hw1 : handleSavePreset newPresetName w =
                if JS.truthy (JS.trim newPresetName)
                then (EmptyString,
                      with_store (with_presets (presets (store w) ++ [saved])
                                               (store w)) w)
                else (newPresetName, w)).
  { unfold handleSavePreset. destruct (JS.truthy (JS.trim newPresetName)); reflexivity. }
  assert (Hs : activeImage (store w1) = activeImage (store w) /\
               canvas (store w1) = canvas (store w) /\
               adjustments (store w1) = adjustments (store w)).
  { subst w1. unfold exec. rewrite Hw1.
    destruct (JS.truthy (JS.trim newPresetName)); repeat split. }
  destruct Hs as (Hi1 & Hc1 & Ha1).
  split; [| split; [| split]].
  - intros Ht. subst w1. unfold exec. rewrite Hw1, Ht. split; reflexivity.
  - intros Ht. subst w1. unfold exec. rewrite Hw1, Ht. split; reflexivity.
  - exact Ha1.
  - change (applyPreset saved) with (runCalls (entries (Preset.adjustments saved))).
    destruct (ready_dec w1) as [Hr1 | Hn1].
    + destruct (runCalls_ready calls w1 Hr1) as (Hr2 & _).
      destruct (runCalls_ready (entries (Preset.adjustments saved)) _ Hr2)
        as (_ & -> & _).
      apply replay_entries.
    + rewrite (runCalls_not_ready calls w1 Hn1), (runCalls_not_ready _ w1 Hn1).
      exact Ha1.
Qed.

Lemma saved_preset_restores_knobs_witness :
  presets (store (exec (handleSavePreset " Warm ") editedWorld)) =
  presets (store editedWorld)
  ++ [{| Preset.name := " Warm ";
         Preset.adjustments := adjustments (store editedWorld) |}] /\
  adjustments
    (store (exec (applyPreset {| Preset.name := " Warm ";
                                 Preset.adjustments := adjustments (store editedWorld) |})
                 (exec (runCalls [(KBrightness, (-50)%Z)])
                       (exec (handleSavePreset " Warm ") editedWorld)))) =
  {| brightness := 10; contrast := 20; saturation := 0; sharpness := 0; noise := 30 |}.
Proof.
  destruct (saved_preset_restores_knobs editedWorld " Warm " [(KBrightness, (-50)%Z)])
    as (Hs & _ & _ & H).
  split.
  - apply Hs. reflexivity.
  - rewrite H. vm_compute. reflexivity.
Defined.

(** ** Crop mode *)

Lemma withoutOthers_objects (img : ref) (objects : list ref) (c : Canvas) :
  c_objects (withoutOthers img objects c) =
  List.filter (fun x => Nat.eqb x img || negb (existsb (Nat.eqb x) objects))
              (c_objects c).
Proof.
  revert c. induction objects as [| o rest IH]; intros c.
  - simpl. symmetry. apply filter_all, Forall_forall. intros x _.
    apply orb_true_r.
  - unfold withoutOthers in *. simpl. rewrite IH.
    destruct (Nat.eqb_spec o img) as [-> | Hne].
    + apply filter_ext. intros x.
      destruct (Nat.eqb_spec x img); reflexivity.
    + cbn [removed c_objects].
      induction (c_objects c) as [| y ys IHy]; [reflexivity |].
      simpl. destruct (Nat.eqb_spec y o) as [-> | Hy]; simpl.
      * destruct (Nat.eqb_spec o img); [contradiction |]. simpl. exact IHy.
      * rewrite IHy. reflexivity.
Qed.

Lemma withoutOthers_self (img : ref) (c : Canvas) :
  c_objects (withoutOthers img (c_objects c) c) =
  List.filter (fun x => Nat.eqb x img) (c_objects c).
Proof.
  rewrite withoutOthers_objects. apply filter_ext_in. intros x Hx.
  destruct (Nat.eqb x img); [reflexivity |]. simpl.
  apply negb_false_iff, existsb_exists. exists x. split; [exact Hx |].
  apply Nat.eqb_refl.
Qed.

Lemma forEach_canvasRemove (img : ref) (objects : list ref) (w : World) (cv : Canvas) :
  canvas (store w) = Some cv ->
  exec (forEach objects
          (fun obj => if Nat.eqb obj img then ret tt else canvasRemove obj)) w =
  with_store (with_canvas (Some (withoutOthers img objects cv)) (store w)) w.
Proof.
  revert w cv. induction objects as [| o rest IH]; intros w cv Hc.
  - cbn. rewrite <- Hc. destruct w as [s h wl r c d]. destruct s. reflexivity.
  - cbn [forEach]. rewrite exec_bind.
    destruct (Nat.eqb o img) eqn:E.
    + change (exec (ret tt) w) with w. rewrite (IH w cv Hc).
      unfold withoutOthers. simpl. rewrite E. reflexivity.
    + assert (Hc1 : canvas (store (exec (canvasRemove o) w)) = Some (removed o cv)).
      { cbn. rewrite Hc. reflexivity. }
      rewrite (IH _ _ Hc1). unfold withoutOthers. simpl. rewrite E. reflexivity.
Qed.

(** What [cropImage] makes of a world with the guard satisfied. *)
Lemma cropImage_ready (w : World) (img : ref) (cv : Canvas) (i : Image) :
  activeImage (store w) = Some img ->
  canvas (store w) = Some cv ->
  imageAt img w = Some i ->
  let rect := length (heap w) in
  exec cropImage w =
  with_heap (heap w ++ [ORect (overlayOf i)])
    (with_store
       (with_canvas
          (Some (rendered (activated rect
                   (added rect (withoutOthers img (c_objects cv) cv)))))
          (store w)) w).
Proof.
  intros Hi Hc Hh rect. unfold cropImage. rewrite exec_bind.
  change (exec get w) with w. change (fst (get w)) with (store w).
  rewrite Hi, Hc. rewrite exec_bind.
  rewrite (forEach_canvasRemove img (c_objects cv) w cv Hc).
  unfold exec at 1.
  assert (Hh' : imageAt img
                  (with_store (with_canvas (Some (withoutOthers img (c_objects cv) cv))
                                           (store w)) w) = Some i) by exact Hh.
  rewrite Hh'. reflexivity.
Qed.

(** The synchronous part of a crop commit, when nothing is missing. *)
Lemma applyCrop_pending
      (w : World) (cv : Canvas) (img rect : ref) (i : Image) (r : Rect) :
  canvas (store w) = Some cv ->
  activeImage (store w) = Some img ->
  imageAt img w = Some i ->
  findRect w (c_objects cv) = Some (rect, r) ->
  context2d w = true ->
  applyCrop w = (Some {| p_image := img; p_rect := rect;
                         p_temp := tempCanvasOf img i r |}, w).
Proof.
  intros Hc Hi Hh Hf Hx. unfold applyCrop. rewrite Hc, Hi, Hf, Hx, Hh. reflexivity.
Qed.

(** The completion of the image load, when the overlay rect is still there. *)
Lemma cropLoaded_ready (w : World) (cv : Canvas) (p : Pending) (r : Rect) :
  canvas (store w) = Some cv ->
  rectAt (p_rect p) w = Some r ->
  let cropped := length (heap w) in
  exec (cropLoaded p) w =
  with_heap (heap w ++ [OImage (croppedImage r (p_temp p))])
    (with_store
       (with_canvas
          (Some (rendered (activated cropped
                   (added cropped (removed (p_rect p) (removed (p_image p) cv))))))
          (with_activeImage (Some cropped) (store w))) w).
Proof.
  intros Hc Hr cropped. unfold cropLoaded, exec. rewrite Hr. cbn. rewrite Hc.
  reflexivity.
Qed.

Lemma findRect_after_images (w : World) (imgs : list ref) (rect : ref) (r : Rect) :
  Forall (fun o => rectAt o w = None) imgs ->
  rectAt rect w = Some r ->
  findRect w (imgs ++ [rect]) = Some (rect, r).
Proof.
  intros Hf Hr. induction Hf as [| o imgs Ho _ IH]; simpl.
  - rewrite Hr. reflexivity.
  - rewrite Ho. exact IH.
Qed.

Lemma imageAt_lt (img : ref) (w : World) (i : Image) :
  imageAt img w = Some i -> img < length (heap w).
Proof.
  unfold imageAt. intros H. apply lookup_lt_is_Some.
  destruct (heap w !! img); [eauto | discriminate].
Qed.

(** The facts about the world right after [cropImage]. *)
Lemma cropImage_facts (w : World) (img : ref) (cv : Canvas) (i : Image) :
  activeImage (store w) = Some img ->
  canvas (store w) = Some cv ->
  imageAt img w = Some i ->
  let w1 := exec cropImage w in
  let rect := length (heap w) in
  let kept := List.filter (fun x => Nat.eqb x img) (c_objects cv) in
  exists cv1,
    canvas (store w1) = Some cv1 /\
    c_objects cv1 = kept ++ [rect] /\
    c_active cv1 = Some rect /\
    activeImage (store w1) = Some img /\
    imageAt img w1 = Some i /\
    rectAt rect w1 = Some (overlayOf i) /\
    findRect w1 (kept ++ [rect]) = Some (rect, overlayOf i) /\
    length (heap w1) = S rect /\
    context2d w1 = context2d w /\
    adjustments (store w1) = adjustments (store w) /\
    history (store w1) = history (store w).
Proof.
  intros Hi Hc Hh w1 rect kept.
  pose proof (imageAt_lt img w i Hh) as Hlt.
  pose proof (cropImage_ready w img cv i Hi Hc Hh) as E. fold w1 rect in E.
  assert (Hr1 : rectAt rect w1 = Some (overlayOf i)).
  { rewrite E. unfold rectAt. cbn. rewrite lookup_app_r by lia.
    subst rect. rewrite Nat.sub_diag. reflexivity. }
  assert (Hh1 : imageAt img w1 = Some i).
  { rewrite E. unfold imageAt in *. cbn. rewrite lookup_app_l by lia. exact Hh. }
  assert (Hk : Forall (fun o => rectAt o w1 = None) kept).
  { subst kept. apply Forall_forall. intros o Ho.
    apply list_elem_of_In, filter_In in Ho. destruct Ho as [_ Ho].
    apply Nat.eqb_eq in Ho. subst o. unfold rectAt. unfold imageAt in Hh1.
    destruct (heap w1 !! img) as [[? | ?] |]; congruence. }
  eexists. split; [rewrite E; reflexivity |].
  split; [cbn; rewrite withoutOthers_self; reflexivity |].
  split; [reflexivity |]. split; [rewrite E; exact Hi |].
  split; [exact Hh1 |]. split; [exact Hr1 |].
  split; [apply findRect_after_images; assumption |].
  split; [rewrite E; cbn; rewrite length_app; simpl; subst rect; lia |].
  rewrite E. repeat split.
Qed.

(** X11: entering crop mode leaves exactly one overlay. With the guard
    satisfied, [cropImage] removes every canvas object other than the active
    image, adds one new rect that covers the image's on-canvas box (its
    position, its size times its scale, scale 1) and selects it; knobs and
    ledger are untouched; and entering crop mode a second time replaces the
    first overlay instead of stacking a second one. *)
Theorem cropImage_single_overlay
        (w : World) (img : ref) (cv : Canvas) (i : Image) :
  activeImage (store w) = Some img ->
  canvas (store w) = Some cv ->
  imageAt img w = Some i ->
  let w1 := exec cropImage w in
  let w2 := exec cropImage w1 in
  let rect := length (heap w) in
  let kept := List.filter (fun x => Nat.eqb x img) (c_objects cv) in
  rectAt rect w1 = Some (overlayOf i) /\
  (c_objects <$> canvas (store w1)) = Some (kept ++ [rect]) /\
  (c_active <$> canvas (store w1)) = Some (Some rect) /\
  adjustments (store w1) = adjustments (store w) /\
  history (store w1) = history (store w) /\
  (c_objects <$> canvas (store w2)) = Some (kept ++ [S rect]) /\
  rectAt (S rect) w2 = Some (overlayOf i).
Proof.
  intros Hi Hc Hh w1 w2 rect kept.
  pose proof (imageAt_lt img w i Hh) as Hlt.
  destruct (cropImage_facts w img cv i Hi Hc Hh)
    as (cv1 & Hc1 & Ho1 & Ha1 & Hi1 & Hh1 & Hr1 & _ & Hl1 & _ & Hadj & Hhist).
  fold w1 rect kept in Hc1, Ho1, Ha1, Hi1, Hh1, Hr1, Hl1, Hadj, Hhist.
  destruct (cropImage_facts w1 img cv1 i Hi1 Hc1 Hh1)
    as (cv2 & Hc2 & Ho2 & _ & _ & _ & Hr2 & _).
  fold w2 in Hc2, Ho2, Hr2. rewrite Hl1 in Ho2, Hr2.
  split; [exact Hr1 |]. split; [rewrite Hc1; cbn; rewrite Ho1; reflexivity |].
  split; [rewrite Hc1; cbn; rewrite Ha1; reflexivity |].
  split; [exact Hadj |]. split; [exact Hhist |].
  split; [| exact Hr2].
  rewrite Hc2. cbn. rewrite Ho2, Ho1. f_equal. f_equal.
  rewrite List.filter_app. simpl.
  destruct (Nat.eqb_spec rect img) as [Heq | _]; [subst rect; lia |].
  rewrite app_nil_r. subst kept. apply filter_all, Forall_forall. intros x Hx.
  apply list_elem_of_In, filter_In in Hx. apply Hx.
Qed.

Lemma cropImage_single_overlay_witness :
  (c_objects <$> canvas (store (exec cropImage (exec cropImage sampleWorld)))) =
  Some [0; 2] /\
  rectAt 1 (exec cropImage sampleWorld) =
  Some {| r_left := 0; r_top := 0; r_width := 200 * 1; r_height := 200 * 1;
          r_scaleX := 1; r_scaleY := 1 |}.
Proof.
  destruct (cropImage_single_overlay sampleWorld 0 sampleCanvas sampleImage
              eq_refl eq_refl eq_refl)
    as (Hr & _ & _ & _ & _ & Ho & _).
  split; [exact Ho | exact Hr].
Defined.

(** The world after a crop commit whose image load completes at once. *)
Lemma commitCrop_ready
      (w : World) (cv : Canvas) (img rect : ref) (i : Image) (r : Rect) :
  canvas (store w) = Some cv ->
  activeImage (store w) = Some img ->
  imageAt img w = Some i ->
  findRect w (c_objects cv) = Some (rect, r) ->
  context2d w = true ->
  let cropped := length (heap w) in
  exec commitCrop w =
  with_heap (heap w ++ [OImage (croppedImage r (tempCanvasOf img i r))])
    (with_store
       (with_canvas
          (Some (rendered (activated cropped
                   (added cropped (removed rect (removed img cv))))))
          (with_activeImage (Some cropped) (store w))) w).
Proof.
  intros Hc Hi Hh Hf Hx cropped.
  unfold commitCrop. rewrite exec_bind. unfold exec at 2.
  rewrite (applyCrop_pending w cv img rect i r Hc Hi Hh Hf Hx).
  cbn [fst snd].
  apply (cropLoaded_ready w cv
           {| p_image := img; p_rect := rect; p_temp := tempCanvasOf img i r |} r Hc).
  apply (findRect_rectAt w _ rect r Hf).
Qed.




Lemma applyCrop_returns_early (w : World) (cv : Canvas) :
  canvas (store w) = Some cv ->
  findRect w (c_objects cv) = None \/ context2d w = false ->
  applyCrop w = (None, w).
Proof.
  intros Hc H.
  unfold applyCrop. rewrite Hc. destruct (activeImage (store w)); [| reflexivity].
  destruct H as [H | H].
  - rewrite H. reflexivity.
  - rewrite H. destruct (findRect w (c_objects cv)) as [[? ?] |]; reflexivity.
Qed.

(** X13: a crop commit with nothing to commit is silent. With a canvas
    mounted, when no rect is on the canvas, or the document gives no 2d
    context, [applyCrop] starts no image load and changes nothing, and so
    does the whole commit; the overlay rect, if there is one, stays. *)
Theorem applyCrop_nothing_to_commit (w : World) (cv : Canvas) :
  canvas (store w) = Some cv ->
  findRect w (c_objects cv) = None \/ context2d w = false ->
  applyCrop w = (None, w) /\ exec commitCrop w = w.
Proof.
  intros Hc H.
  pose proof (applyCrop_returns_early w cv Hc H) as Ha.
  split; [exact Ha |]. unfold commitCrop, exec, bind. rewrite Ha. reflexivity.
Qed.

Lemma applyCrop_nothing_to_commit_witness :
  exec commitCrop sampleWorld = sampleWorld.
Proof.
  apply (applyCrop_nothing_to_commit sampleWorld sampleCanvas eq_refl).
  left. reflexivity.
Defined.

(** X14: the crop button leaves crop mode on its second click whatever
    [applyCrop] did. The first click enters crop mode ([isCropping] true);
    when the document gives no 2d context the second click commits nothing
    and starts no image load, yet [isCropping] is false afterwards and the
    overlay rect is still on the canvas. *)
Theorem crop_button_leaves_mode_on_failure
        (w : World) (img : ref) (cv : Canvas) (i : Image) :
  activeImage (store w) = Some img ->
  canvas (store w) = Some cv ->
  imageAt img w = Some i ->
  context2d w = false ->
  let w1 := exec (handleCropClick false) w in
  let w2 := exec (handleCropClick true) w1 in
  fst (handleCropClick false w) = (true, None) /\
  fst (handleCropClick true w1) = (false, None) /\
  w2 = w1 /\
  exists cv2, canvas (store w2) = Some cv2 /\
              findRect w2 (c_objects cv2) = Some (length (heap w), overlayOf i).
Proof.
  intros Hi Hc Hh Hx w1 w2.
  assert (E1 : w1 = exec cropImage w).
  { subst w1. unfold handleCropClick. cbn [negb]. rewrite exec_bind. reflexivity. }
  destruct (cropImage_facts w img cv i Hi Hc Hh)
    as (cv1 & Hc1 & Ho1 & _ & _ & _ & _ & Hf1 & _ & Hx1 & _).
  rewrite <- E1 in Hc1, Hf1, Hx1. rewrite Hx in Hx1. rewrite <- Ho1 in Hf1.
  pose proof (applyCrop_returns_early w1 cv1 Hc1 (or_intror Hx1)) as Ha.
  assert (H2 : handleCropClick true w1 = ((false, None), w1)).
  { unfold handleCropClick. cbn [negb]. unfold bind. rewrite Ha. reflexivity. }
  split.
  { unfold handleCropClick. cbn [negb]. unfold bind.
    destruct (cropImage w). reflexivity. }
  split; [rewrite H2; reflexivity |].
  assert (E2 : w2 = w1) by (subst w2; unfold exec; rewrite H2; reflexivity).
  split; [exact E2 |]. exists cv1. rewrite E2. auto.
Qed.

Lemma crop_button_leaves_mode_on_failure_witness :
  fst (handleCropClick true
         (exec (handleCropClick false)
               {| store := store sampleWorld; heap := heap sampleWorld;
                  wall := wall sampleWorld; reads := 0; context2d := false;
                  downloads := 0 |})) = (false, None).
Proof.
  destruct (crop_button_leaves_mode_on_failure
              {| store := store sampleWorld; heap := heap sampleWorld;
                 wall := wall sampleWorld; reads := 0; context2d := false;
                 downloads := 0 |}
              0 sampleCanvas sampleImage eq_refl eq_refl eq_refl eq_refl)
    as (_ & H & _).
  exact H.
Defined.

(** ** What a new image inherits *)

(** X15: a crop commit swaps the image but not the editor state. After the
    commit the knobs, the grayscale flag, the ledger and the presets are as
    before, while the new active image carries an empty filter list; the next
    [updateAdjustment] then puts the full stack for the stored knobs and flag
    on the new image and leaves the old image object alone. *)
Theorem crop_commit_keeps_editor_state
        (w : World) (cv : Canvas) (img rect : ref) (i : Image) (r : Rect)
        (key : AdjKey) (value : Z) :
  canvas (store w) = Some cv ->
  activeImage (store w) = Some img ->
  imageAt img w = Some i ->
  findRect w (c_objects cv) = Some (rect, r) ->
  context2d w = true ->
  let w' := exec commitCrop w in
  let cropped := length (heap w) in
  let w'' := exec (updateAdjustment key value) w' in
  adjustments (store w') = adjustments (store w) /\
  isGrayscale (store w') = isGrayscale (store w) /\
  history (store w') = history (store w) /\
  presets (store w') = presets (store w) /\
  (exists i', imageAt cropped w' = Some i' /\
              i_filters i' = Some [] /\ i_applied i' = []) /\
  (exists i'', imageAt cropped w'' = Some i'' /\
               i_applied i'' =
                 computeFilterStack (set_knob key value (adjustments (store w)))
                                    (isGrayscale (store w))) /\
  imageAt img w'' = Some i.
Proof.
  intros Hc Hi Hh Hf Hx w' cropped w''.
  pose proof (commitCrop_ready w cv img rect i r Hc Hi Hh Hf Hx) as E.
  fold w' cropped in E.
  pose proof (imageAt_lt img w i Hh) as Hlt.
  assert (Hn : imageAt cropped w' =
               Some (croppedImage r (tempCanvasOf img i r))).
  { rewrite E. unfold imageAt. cbn. rewrite lookup_app_r by lia.
    subst cropped. rewrite Nat.sub_diag. reflexivity. }
  assert (Hi' : activeImage (store w') = Some cropped) by (rewrite E; reflexivity).
  assert (Hc' : exists cv', canvas (store w') = Some cv') by (rewrite E; cbn; eauto).
  destruct Hc' as (cv' & Hc').
  split; [rewrite E; reflexivity |]. split; [rewrite E; reflexivity |].
  split; [rewrite E; reflexivity |]. split; [rewrite E; reflexivity |].
  split; [eexists; split; [exact Hn | split; reflexivity] |].
  split.
  - destruct (updateAdjustment_filters key value w' cropped cv' _ Hi' Hc' Hn)
      as (i'' & Hh'' & _ & Ha'').
    exists i''. split; [exact Hh'' |]. rewrite Ha'', E. reflexivity.
  - subst w''. unfold updateAdjustment, exec, bind, get. rewrite Hi', Hc'. cbn.
    unfold imageAt. destruct (isGrayscale (store w')); cbn;
      rewrite !list_lookup_alter_ne by (subst cropped; lia);
      rewrite E; cbn; rewrite lookup_app_l by lia; exact Hh.
Qed.

Lemma crop_commit_keeps_editor_state_witness :
  (i_applied <$> imageAt 2 (exec (updateAdjustment KContrast 30)
                                 (exec commitCrop croppingWorld))) =
  Some [ Brightness (inject_Z 0 / 100); Contrast (inject_Z 30 / 100);
         Saturation (inject_Z 0 / 100); Sharpness (inject_Z 0);
         Noise (inject_Z 0) ].
Proof.
  destruct (crop_commit_keeps_editor_state croppingWorld
              {| c_objects := [0; 1]; c_active := Some 1; c_zoom := 1; c_renders := 1 |}
              0 1 sampleImage
              {| r_left := 0; r_top := 0; r_width := 100; r_height := 200;
                 r_scaleX := 1; r_scaleY := 1 |}
              KContrast 30 eq_refl eq_refl eq_refl eq_refl eq_refl)
    as (_ & _ & _ & _ & _ & (i'' & Hh & Ha) & _).
  change (length (heap croppingWorld)) with 2 in Hh. rewrite Hh. cbn [fmap option_fmap option_map]. rewrite Ha. reflexivity.
Defined.

(** X16: loading an upload replaces the canvas content but keeps the
    editor state. With a canvas mounted, the load callback leaves the new
    image as the only canvas object and as the active image, scaled equally
    in both directions and without filters, while knobs, grayscale flag,
    ledger and presets are those of the session so far; the next
    [updateAdjustment] applies the stack for those inherited knobs and flag to
    the new image. *)
Theorem imageLoaded_keeps_editor_state
        (w : World) (cv : Canvas) (canvasWidth canvasHeight : Q)
        (file : nat) (width height : Q) (key : AdjKey) (value : Z) :
  canvas (store w) = Some cv ->
  let w' := exec (imageLoaded canvasWidth canvasHeight file width height) w in
  let img := length (heap w) in
  let w'' := exec (updateAdjustment key value) w' in
  activeImage (store w') = Some img /\
  (c_objects <$> canvas (store w')) = Some [img] /\
  (exists i, imageAt img w' = Some i /\
             i_filters i = Some [] /\ i_applied i = [] /\
             i_scaleX i = i_scaleY i /\
             i_width i = width /\ i_height i = height /\
             i_element i = Decoded file) /\
  adjustments (store w') = adjustments (store w) /\
  isGrayscale (store w') = isGrayscale (store w) /\
  history (store w') = history (store w) /\
  presets (store w') = presets (store w) /\
  (exists i'', imageAt img w'' = Some i'' /\
               i_applied i'' =
                 computeFilterStack (set_knob key value (adjustments (store w)))
                                    (isGrayscale (store w))).
Proof.
  intros Hc w' img w''.
  assert (Hi' : activeImage (store w') = Some img).
  { subst w'. unfold imageLoaded, exec, bind. cbn. reflexivity. }
  assert (Hc' : exists cv', canvas (store w') = Some cv' /\ c_objects cv' = [img]).
  { subst w'. unfold imageLoaded, exec, bind. cbn. rewrite Hc. cbn. eauto. }
  destruct Hc' as (cv' & Hc' & Ho').
  assert (Hn : exists i, imageAt img w' = Some i /\
             i_filters i = Some [] /\ i_applied i = [] /\
             i_scaleX i = i_scaleY i /\
             i_width i = width /\ i_height i = height /\
             i_element i = Decoded file).
  { subst w'. unfold imageLoaded, exec, bind, imageAt. cbn.
    rewrite lookup_app_r by lia. subst img. rewrite Nat.sub_diag. cbn.
    eexists. split; [reflexivity |]. repeat split. }
  assert (Hs : adjustments (store w') = adjustments (store w) /\
               isGrayscale (store w') = isGrayscale (store w) /\
               history (store w') = history (store w) /\
               presets (store w') = presets (store w)).
  { subst w'. unfold imageLoaded, exec, bind. cbn. auto. }
  destruct Hs as (Ha & Hg & Hl & Hp).
  split; [exact Hi' |]. split; [rewrite Hc'; cbn; rewrite Ho'; reflexivity |].
  split; [exact Hn |]. split; [exact Ha |]. split; [exact Hg |].
  split; [exact Hl |]. split; [exact Hp |].
  destruct Hn as (i & Hh & _).
  destruct (updateAdjustment_filters key value w' img cv' i Hi' Hc' Hh)
    as (i'' & Hh'' & _ & Ha'').
  exists i''. split; [exact Hh'' |]. rewrite Ha'', Ha, Hg. reflexivity.
Qed.

Lemma imageLoaded_keeps_editor_state_witness :
  adjustments (store (exec (imageLoaded 800 600 1 400 300) editedWorld)) =
  {| brightness := 10; contrast := 20; saturation := 0; sharpness := 0; noise := 30 |} /\
  (c_objects <$> canvas (store (exec (imageLoaded 800 600 1 400 300) editedWorld))) =
  Some [1].
Proof.
  destruct (imageLoaded_keeps_editor_state editedWorld
              {| c_objects := [0]; c_active := None; c_zoom := 1; c_renders := 3 |}
              800 600 1 400 300 KNoise 0 eq_refl)
    as (_ & Ho & _ & Ha & _).
  split; [rewrite Ha; vm_compute; reflexivity | exact Ho].
Defined.



(** ** The Sharpness filter *)

Lemma forLoop_invariant {S : Type} (P : S -> Prop) (from to : nat)
      (body : nat -> S -> S) (s : S) :
  (forall i s', from <= i < to -> P s' -> P (body i s')) ->
  P s -> P (forLoop from to body s).
Proof.
  unfold forLoop. intros Hb.
  assert (Hin : forall i, In i (seq from (to - from)) -> from <= i < to).
  { intros i Hi. apply in_seq in Hi. lia. }
  revert s. induction (seq from (to - from)) as [| i l IH]; intros s Hs.
  - exact Hs.
  - simpl. apply IH.
    + intros j Hj. apply Hin. right. exact Hj.
    + apply Hb; [apply Hin; left; reflexivity | exact Hs].
Qed.

Lemma forLoop_id {S : Type} (from to : nat) (body : nat -> S -> S) (s : S) :
  (forall i, from <= i < to -> body i s = s) -> forLoop from to body s = s.
Proof.
  intros Hb. apply (forLoop_invariant (fun s' => s' = s)); [| reflexivity].
  intros i s' Hi ->. apply Hb, Hi.
Qed.

Lemma sharpenChannel_length amount idx idxN idxS idxE idxW c data :
  length (sharpenChannel amount idx idxN idxS idxE idxW c data) = length data.
Proof.
  unfold sharpenChannel.
  destruct (data !! (idx + c)), (data !! (idxN + c)), (data !! (idxS + c)),
           (data !! (idxE + c)), (data !! (idxW + c));
    apply length_insert.
Qed.

Lemma sharpenChannel_other amount idx idxN idxS idxE idxW c data k :
  k <> idx + c ->
  sharpenChannel amount idx idxN idxS idxE idxW c data !! k = data !! k.
Proof.
  intros Hk. unfold sharpenChannel.
  destruct (data !! (idx + c)), (data !! (idxN + c)), (data !! (idxS + c)),
           (data !! (idxE + c)), (data !! (idxW + c));
    apply list_lookup_insert_ne; auto.
Qed.

(** The bytes [applyTo2d] can write are the colour channels of interior
    pixels; every other index keeps its byte through the three loops. *)
Lemma applyTo2d_other (sharpness : Q) (d : ImageData) (k : nat) :
  (forall x y c, 1 <= x -> x + 1 < id_width d -> 1 <= y -> y + 1 < id_height d ->
                 c < 3 -> k <> byteIndex (id_width d) x y c) ->
  id_data (applyTo2d sharpness d) !! k = id_data d !! k.
Proof.
  intros Hk. unfold applyTo2d. cbn [id_data].
  apply (forLoop_invariant (fun data => data !! k = id_data d !! k)); [| reflexivity].
  intros y data Hy Hd.
  apply (forLoop_invariant (fun data => data !! k = id_data d !! k)); [| exact Hd].
  intros x data' Hx Hd'.
  apply (forLoop_invariant (fun data => data !! k = id_data d !! k)); [| exact Hd'].
  intros c data'' Hc Hd''.
  rewrite sharpenChannel_other; [exact Hd'' |].
  apply (Hk x y c); lia.
Qed.

Lemma byteIndex_inj (width x y c x' y' c' : nat) :
  x < width -> x' < width -> c < 4 -> c' < 4 ->
  byteIndex width x y c = byteIndex width x' y' c' ->
  x = x' /\ y = y' /\ c = c'.
Proof.
  unfold byteIndex. intros Hx Hx' Hc Hc' E.
  assert (Hp : y * width + x = y' * width + x' /\ c = c') by lia.
  destruct Hp as [Hp ->].
  assert (Hy : y = y').
  { destruct (Nat.lt_trichotomy y y') as [Hlt | [-> | Hgt]]; [| reflexivity |]; nia. }
  subst y'. split; [lia | auto].
Qed.

(** X18: sharpening leaves the border and the alpha channel alone. For
    every sharpness, [applyTo2d] keeps the size of the data; the alpha byte of
    every pixel and all four bytes of every pixel in the first or last row or
    column keep their value; and an image less than 3 pixels wide or high is
    not changed at all. *)
Theorem applyTo2d_border_and_alpha
        (sharpness : Q) (d : ImageData) (x y c : nat) :
  x < id_width d ->
  c < 4 ->
  c = 3 \/ x = 0 \/ y = 0 \/ x + 1 = id_width d \/ id_height d <= y + 1 ->
  let d' := applyTo2d sharpness d in
  id_data d' !! byteIndex (id_width d) x y c =
    id_data d !! byteIndex (id_width d) x y c /\
  length (id_data d') = length (id_data d) /\
  id_width d' = id_width d /\ id_height d' = id_height d /\
  (id_width d < 3 \/ id_height d < 3 -> id_data d' = id_data d).
Proof.
  intros Hx Hc Hb d'. split; [| split; [| split; [reflexivity | split; [reflexivity |]]]].
  - apply applyTo2d_other. intros x' y' c' Hx1 Hx2 Hy1 Hy2 Hc' E.
    apply byteIndex_inj in E; [| lia | lia | lia | lia].
    destruct E as (-> & -> & ->). lia.
  - subst d'. unfold applyTo2d. cbn [id_data].
    apply (forLoop_invariant (fun data => length data = length (id_data d)));
      [| reflexivity].
    intros y0 data _ Hd.
    apply (forLoop_invariant (fun data => length data = length (id_data d)));
      [| exact Hd].
    intros x0 data' _ Hd'.
    apply (forLoop_invariant (fun data => length data = length (id_data d)));
      [| exact Hd'].
    intros c0 data'' _ Hd''. rewrite sharpenChannel_length. exact Hd''.
  - intros Hs. subst d'. unfold applyTo2d. cbn [id_data].
    apply forLoop_id. intros y0 Hy0. apply forLoop_id. intros x0 Hx0. lia.
Qed.

Lemma applyTo2d_border_and_alpha_witness :
  id_data (applyTo2d 100 spotData) !! byteIndex 3 1 1 3 = Some 255%Z /\
  id_data (applyTo2d 100 spotData) !! byteIndex 3 0 1 0 = Some 10%Z.
Proof.
  split.
  - apply (applyTo2d_border_and_alpha 100 spotData 1 1 3); simpl; lia.
  - apply (applyTo2d_border_and_alpha 100 spotData 0 1 0); simpl; lia.
Defined.

Lemma toUint8Clamp_range (v : Q) : (0 <= toUint8Clamp v <= 255)%Z.
Proof.
  unfold toUint8Clamp.
  destruct (Qle_bool v 0) eqn:H0; [lia |].
  destruct (Qle_bool 255 v) eqn:H255; [lia |].
  assert (Hpos : (0 < v)%Q).
  { apply Qnot_le_lt. intros H. apply Qle_bool_iff in H. congruence. }
  assert (Hlt : (v < 255)%Q).
  { apply Qnot_le_lt. intros H. apply Qle_bool_iff in H. congruence. }
  assert (Hf0 : (0 <= Qfloor v)%Z).
  { change 0%Z with (Qfloor 0). apply Qfloor_resp_le, Qlt_le_weak, Hpos. }
  assert (Hf1 : (Qfloor v < 255)%Z).
  { rewrite Zlt_Qlt. eapply Qle_lt_trans; [apply Qfloor_le | exact Hlt]. }
  destruct (v - inject_Z (Qfloor v) ?= 1 # 2)%Q; [destruct (Z.even _) | |]; lia.
Qed.

Lemma toUint8Clamp_comp (p q : Q) : (p == q)%Q -> toUint8Clamp p = toUint8Clamp q.
Proof.
  intros E. unfold toUint8Clamp.
  assert (E1 : Qle_bool p 0 = Qle_bool q 0) by (rewrite E; reflexivity).
  assert (E2 : Qle_bool 255 p = Qle_bool 255 q) by (rewrite E; reflexivity).
  assert (E3 : Qfloor p = Qfloor q) by (rewrite E; reflexivity).
  assert (E4 : (p - inject_Z (Qfloor p) ?= 1 # 2)%Q =
               (q - inject_Z (Qfloor q) ?= 1 # 2)%Q).
  { rewrite E3. apply Qcompare_comp; [rewrite E; reflexivity | reflexivity]. }
  rewrite E1, E2, E4, E3. reflexivity.
Qed.

Lemma toUint8Clamp_byte (z : Z) :
  (0 <= z <= 255)%Z -> toUint8Clamp (inject_Z z) = z.
Proof.
  intros Hz. unfold toUint8Clamp.
  destruct (Qle_bool (inject_Z z) 0) eqn:H0.
  { apply Qle_bool_iff in H0. change 0%Q with (inject_Z 0) in H0.
    rewrite <- Zle_Qle in H0. lia. }
  destruct (Qle_bool 255 (inject_Z z)) eqn:H255.
  { apply Qle_bool_iff in H255. change 255%Q with (inject_Z 255) in H255.
    rewrite <- Zle_Qle in H255. lia. }
  rewrite Qfloor_Z.
  assert (E : (inject_Z z - inject_Z z ?= 1 # 2)%Q = Lt).
  { apply Qlt_alt.
    assert (Hd : (inject_Z z - inject_Z z == 0)%Q) by ring.
    rewrite Hd. reflexivity. }
  rewrite E. reflexivity.
Qed.

Lemma clamp_byte (q : Q) (z : Z) :
  (q == inject_Z z)%Q -> (0 <= z <= 255)%Z ->
  toUint8Clamp (Math_min 255 (Math_max 0 q)) = z.
Proof.
  intros E Hz.
  assert (H0 : (0 <= q)%Q).
  { rewrite E. change 0%Q with (inject_Z 0). rewrite <- Zle_Qle. lia. }
  assert (H1 : (q <= 255)%Q).
  { rewrite E. change 255%Q with (inject_Z 255). rewrite <- Zle_Qle. lia. }
  unfold Math_max. apply Qle_bool_iff in H0. rewrite H0.
  unfold Math_min.
  destruct (Qle_bool 255 q) eqn:H255.
  - apply Qle_bool_iff in H255.
    assert (E' : (255 == inject_Z z)%Q) by (rewrite <- E; apply Qle_antisym; assumption).
    rewrite (toUint8Clamp_comp _ _ E'). apply toUint8Clamp_byte, Hz.
  - rewrite (toUint8Clamp_comp _ _ E). apply toUint8Clamp_byte, Hz.
Qed.

Lemma sharpenChannel_range amount idx idxN idxS idxE idxW c data :
  Forall (fun b => (0 <= b <= 255)%Z) data ->
  Forall (fun b => (0 <= b <= 255)%Z)
         (sharpenChannel amount idx idxN idxS idxE idxW c data).
Proof.
  intros H. unfold sharpenChannel.
  destruct (data !! (idx + c)), (data !! (idxN + c)), (data !! (idxS + c)),
           (data !! (idxE + c)), (data !! (idxW + c));
    apply Forall_insert; auto; first [apply toUint8Clamp_range | lia].
Qed.

(** X19: sharpening never leaves the byte range. Whatever the sharpness,
    if every byte of the data is in [0, 255] then so is every byte after
    [applyTo2d]: each value written is clamped. *)
Theorem applyTo2d_stays_in_range (sharpness : Q) (d : ImageData) :
  Forall (fun b => (0 <= b <= 255)%Z) (id_data d) ->
  Forall (fun b => (0 <= b <= 255)%Z) (id_data (applyTo2d sharpness d)).
Proof.
  intros Hd. unfold applyTo2d. cbn [id_data].
  apply (forLoop_invariant (Forall (fun b => (0 <= b <= 255)%Z))); [| exact Hd].
  intros y data _ H1.
  apply (forLoop_invariant (Forall (fun b => (0 <= b <= 255)%Z))); [| exact H1].
  intros x data' _ H2.
  apply (forLoop_invariant (Forall (fun b => (0 <= b <= 255)%Z))); [| exact H2].
  intros c data'' _ H3. apply sharpenChannel_range, H3.
Qed.

Lemma applyTo2d_stays_in_range_witness :
  Forall (fun b => (0 <= b <= 255)%Z) (id_data (applyTo2d 5000 spotData)).
Proof.
  apply (applyTo2d_stays_in_range 5000 spotData).
  unfold spotData. cbn [id_data]. repeat constructor; lia.
Defined.

(** A channel whose sharpened value equals its current value is rewritten
    with the byte it holds. *)
Lemma sharpenChannel_same amount idx idxN idxS idxE idxW c data cur n s e w :
  data !! (idx + c) = Some cur ->
  data !! (idxN + c) = Some n ->
  data !! (idxS + c) = Some s ->
  data !! (idxE + c) = Some e ->
  data !! (idxW + c) = Some w ->
  (0 <= cur <= 255)%Z ->
  (inject_Z cur +
   (inject_Z cur - (inject_Z n + inject_Z s + inject_Z e + inject_Z w) / 4) * amount
   == inject_Z cur)%Q ->
  sharpenChannel amount idx idxN idxS idxE idxW c data = data.
Proof.
  intros Hc Hn Hs He Hw Hr E. unfold sharpenChannel.
  rewrite Hc, Hn, Hs, He, Hw. rewrite (clamp_byte _ cur E Hr).
  apply list_insert_id, Hc.
Qed.

Lemma byte_lookup (data : list Z) (k : nat) :
  Forall (fun b => (0 <= b <= 255)%Z) data ->
  k < length data ->
  exists b, data !! k = Some b /\ (0 <= b <= 255)%Z.
Proof.
  intros Hf Hk. destruct (lookup_lt_is_Some_2 data k Hk) as [b Hb].
  exists b. split; [exact Hb |].
  rewrite Forall_forall in Hf. apply Hf. eapply list_elem_of_lookup_2, Hb.
Qed.

(** The loops of [applyTo2d] leave well-formed data as they are, provided
    every interior channel is rewritten with its own value. *)
Lemma applyTo2d_fixed (sharpness : Q) (d : ImageData) :
  wellFormed d ->
  (forall x y c cur n s e w,
      1 <= x -> x + 1 < id_width d -> 1 <= y -> y + 1 < id_height d -> c < 3 ->
      id_data d !! byteIndex (id_width d) x y c = Some cur ->
      id_data d !! byteIndex (id_width d) x (y - 1) c = Some n ->
      id_data d !! byteIndex (id_width d) x (y + 1) c = Some s ->
      id_data d !! byteIndex (id_width d) (x + 1) y c = Some e ->
      id_data d !! byteIndex (id_width d) (x - 1) y c = Some w ->
      (inject_Z cur +
       (inject_Z cur - (inject_Z n + inject_Z s + inject_Z e + inject_Z w) / 4)
       * (sharpness / 50) == inject_Z cur)%Q) ->
  applyTo2d sharpness d = d.
Proof.
  intros [Hlen Hbytes] Hsame. unfold applyTo2d.
  destruct d as [width height data]. cbn [id_width id_height id_data] in *.
  f_equal.
  apply forLoop_id. intros y Hy. apply forLoop_id. intros x Hx.
  apply forLoop_id. intros c Hc.
  assert (Hk : forall x' y', x' < width -> y' < height ->
                 exists b, data !! ((y' * width + x') * 4 + c) = Some b /\
                           (0 <= b <= 255)%Z).
  { intros x' y' Hx' Hy'. apply byte_lookup; [exact Hbytes |]. rewrite Hlen. nia. }
  destruct (Hk x y) as (cur & Ecur & Hr); [lia | lia |].
  destruct (Hk x (y - 1)) as (n & En & _); [lia | lia |].
  destruct (Hk x (y + 1)) as (s & Es & _); [lia | lia |].
  destruct (Hk (x + 1) y) as (e & Ee & _); [lia | lia |].
  destruct (Hk (x - 1) y) as (w & Ew & _); [lia | lia |].
  replace (y * width + (x + 1)) with (y * width + x + 1) in Ee by lia.
  replace (y * width + (x - 1)) with (y * width + x - 1) in Ew by lia.
  eapply sharpenChannel_same; try eassumption.
  apply (Hsame x y c cur n s e w); unfold byteIndex; try lia; try assumption.
  - replace (y * width + (x + 1)) with (y * width + x + 1) by lia. exact Ee.
  - replace (y * width + (x - 1)) with (y * width + x - 1) by lia. exact Ew.
Qed.

(** X20: sharpness 0 is the identity. On well-formed image data (four
    bytes per pixel, each in [0, 255]) [applyTo2d] of a Sharpness filter whose
    sharpness is 0, the one [updateAdjustment] builds for a sharpness knob at
    0, returns the data unchanged. *)
Theorem applyTo2d_zero_sharpness (sharpness : Q) (d : ImageData) :
  (sharpness == 0)%Q ->
  wellFormed d ->
  applyTo2d sharpness d = d.
Proof.
  intros Hs Hd. apply applyTo2d_fixed; [exact Hd |].
  intros x y c cur n s e w _ _ _ _ _ _ _ _ _ _.
  rewrite Hs. field.
Qed.

Lemma applyTo2d_zero_sharpness_witness :
  applyTo2d (inject_Z (sharpness DEFAULT_ADJUSTMENTS)) spotData = spotData.
Proof.
  apply (applyTo2d_zero_sharpness (inject_Z (sharpness DEFAULT_ADJUSTMENTS)) spotData).
  - reflexivity.
  - split; [reflexivity |]. unfold spotData. cbn [id_data]. repeat constructor; lia.
Defined.

(** X21: an image of one colour is a fixed point of sharpening. On
    well-formed data whose pixels all have the colour of the first pixel,
    [applyTo2d] returns the data unchanged for every sharpness. *)
Theorem applyTo2d_uniform_image (sharpness : Q) (d : ImageData) :
  wellFormed d ->
  uniform d ->
  applyTo2d sharpness d = d.
Proof.
  intros Hd Hu. apply applyTo2d_fixed; [exact Hd |].
  intros x y c cur n s e w Hx1 Hx2 Hy1 Hy2 Hc Ecur En Es Ee Ew.
  assert (Hp : forall x' y', x' < id_width d -> y' < id_height d ->
                 id_data d !! byteIndex (id_width d) x' y' c = id_data d !! c).
  { intros x' y' Hx' Hy'. unfold byteIndex. apply Hu; [nia | exact Hc]. }
  rewrite Hp in Ecur, En, Es, Ee, Ew by lia.
  assert (n = cur) by congruence. assert (s = cur) by congruence.
  assert (e = cur) by congruence. assert (w = cur) by congruence.
  subst n s e w. field.
Qed.

Lemma applyTo2d_uniform_image_witness :
  applyTo2d 100 flatData = flatData.
Proof.
  apply (applyTo2d_uniform_image 100 flatData).
  - split; [reflexivity |]. unfold flatData. cbn. repeat constructor; lia.
  - intros p c Hp Hc. cbn in Hp.
    do 9 (destruct p as [| p]; [do 3 (destruct c as [| c]; [reflexivity |]); lia |]).
    lia.
Defined.

(** ** Filter list, flag and display *)

Lemma existsb_filter_out {A : Type} (f : A -> bool) (l : list A) :
  existsb f (List.filter (fun x => negb (f x)) l) = false.
Proof.
  induction l as [| x l IH]; [reflexivity |].
  simpl. destruct (f x) eqn:E; simpl; [exact IH |]. rewrite E. exact IH.
Qed.

(** X22: after a grayscale toggle the flag and the stack agree. With the
    guard satisfied and a filter list on the active image, after
    [toggleGrayscale], and after [updateAdjustment], the stack applied to the
    image contains a Grayscale filter exactly when the grayscale flag is
    set. *)
Theorem grayscale_flag_matches_stack
        (w : World) (img : ref) (cv : Canvas) (i : Image) (fs : list Filter)
        (key : AdjKey) (value : Z) :
  activeImage (store w) = Some img ->
  canvas (store w) = Some cv ->
  imageAt img w = Some i ->
  i_filters i = Some fs ->
  (exists i', imageAt img (exec toggleGrayscale w) = Some i' /\
              existsb isGrayscaleFilter (i_applied i') =
              isGrayscale (store (exec toggleGrayscale w))) /\
  (exists i', imageAt img (exec (updateAdjustment key value) w) = Some i' /\
              existsb isGrayscaleFilter (i_applied i') =
              isGrayscale (store (exec (updateAdjustment key value) w))).
Proof.
  intros Hi Hc Hh Hf. split.
  - destruct (toggleGrayscale_ready w img cv i Hi Hc Hh)
      as (_ & _ & Hg & _ & _ & i' & Hh' & Hf' & Ha').
    exists i'. split; [exact Hh' |]. rewrite Ha', Hf', Hg, Hf.
    destruct (isGrayscale (store w)); cbn.
    + apply existsb_filter_out.
    + rewrite existsb_app. simpl. apply orb_true_r.
  - destruct (updateAdjustment_filters key value w img cv i Hi Hc Hh)
      as (i' & Hh' & _ & Ha').
    assert (Hr : ready w) by (exists img, cv; auto).
    destruct (updateAdjustment_ready key value w Hr) as [_ _ _ _ Hg _ _ _].
    exists i'. split; [exact Hh' |]. rewrite Ha', Hg.
    destruct (isGrayscale (store w)); reflexivity.
Qed.

Lemma grayscale_flag_matches_stack_witness :
  (existsb isGrayscaleFilter <$>
     (i_applied <$> imageAt 0 (exec toggleGrayscale onceEditedWorld))) = Some true.
Proof.
  destruct (grayscale_flag_matches_stack onceEditedWorld 0
              {| c_objects := [0]; c_active := None; c_zoom := 1; c_renders := 1 |}
              {| i_left := 0; i_top := 0; i_width := 200; i_height := 200;
                 i_scaleX := 1; i_scaleY := 1; i_angle := 0;
                 i_filters := Some (computeFilterStack
                                      {| brightness := 0; contrast := 0;
                                         saturation := 40; sharpness := 0;
                                         noise := 0 |} false);
                 i_applied := computeFilterStack
                                {| brightness := 0; contrast := 0;
                                   saturation := 40; sharpness := 0;
                                   noise := 0 |} false;
                 i_element := Decoded 0 |}
              (computeFilterStack
                 {| brightness := 0; contrast := 0; saturation := 40;
                    sharpness := 0; noise := 0 |} false)
              KNoise 0 eq_refl eq_refl eq_refl eq_refl)
    as ((i' & Hh & Hg) & _).
  rewrite Hh. cbn [fmap option_fmap option_map]. rewrite Hg. reflexivity.
Defined.

Lemma applied_same_heap (w w' : World) :
  heap w' = heap w -> applied w -> applied w'.
Proof.
  intros E Hp k i H. apply (Hp k i). unfold imageAt in *. rewrite <- E. exact H.
Qed.

(** A chain of writes to one image that ends with [applyFilters()]. *)
Lemma applied_bake (w w' : World) (img : ref) (g : Image -> Image)
      (h' : list FabricObject) :
  (forall i, i_applied (g i) = default [] (i_filters (g i))) ->
  (forall k, k <> img -> h' !! k = heap w !! k) ->
  heap w' = alter (onImage g) img h' ->
  applied w -> applied w'.
Proof.
  intros Hg Hother E Hp k i H. unfold imageAt in H. rewrite E in H.
  destruct (Nat.eq_dec k img) as [-> | Hne].
  - rewrite list_lookup_alter_eq in H.
    destruct (h' !! img) as [[i0 | r] |]; try discriminate.
    cbn in H. injection H as <-. apply Hg.
  - rewrite list_lookup_alter_ne in H by auto. rewrite Hother in H by exact Hne.
    apply (Hp k i). unfold imageAt. exact H.
Qed.

Lemma applied_push (w w' : World) (o : FabricObject) :
  (forall i, o = OImage i -> i_applied i = default [] (i_filters i)) ->
  heap w' = heap w ++ [o] ->
  applied w -> applied w'.
Proof.
  intros Ho E Hp k i H. unfold imageAt in H. rewrite E in H.
  destruct (Nat.lt_ge_cases k (length (heap w))) as [Hlt | Hge].
  - rewrite lookup_app_l in H by exact Hlt. apply (Hp k i). exact H.
  - rewrite lookup_app_r in H by exact Hge.
    destruct (k - length (heap w)) as [| n]; [| destruct n; discriminate].
    cbn in H. destruct o as [i0 | r]; [| discriminate].
    injection H as <-. apply Ho. reflexivity.
Qed.

Lemma updateAdjustment_applied (key : AdjKey) (value : Z) (w : World) :
  applied w -> applied (exec (updateAdjustment key value) w).
Proof.
  intros Hp. destruct (ready_dec w) as [(img & cv & Hi & Hc) | Hn].
  - unfold updateAdjustment, exec, bind, get. rewrite Hi, Hc. cbn.
    destruct (isGrayscale (store w)); cbn;
      (eapply (applied_bake w _ img);
       [ | | cbn; reflexivity | exact Hp ];
       [ intros i; reflexivity
       | intros k Hk; rewrite !list_lookup_alter_ne by auto; reflexivity ]).
  - unfold exec. rewrite (not_ready_updateAdjustment key value w Hn). exact Hp.
Qed.

Lemma runCalls_applied (calls : list (AdjKey * Z)) (w : World) :
  applied w -> applied (exec (runCalls calls) w).
Proof.
  revert w. induction calls as [| [key value] rest IH]; intros w Hp.
  - exact Hp.
  - rewrite runCalls_cons. apply IH, updateAdjustment_applied, Hp.
Qed.

Lemma forEach_heap {A : Type} (l : list A) (f : A -> M unit) (w : World) :
  (forall x w0, heap (exec (f x) w0) = heap w0) ->
  heap (exec (forEach l f) w) = heap w.
Proof.
  intros Hf. revert w. induction l as [| x l IH]; intros w.
  - reflexivity.
  - cbn [forEach]. rewrite exec_bind, IH. apply Hf.
Qed.

(** X23: the store never leaves a filter list unapplied. If every image
    object shows the filter list it carries, it still does after any store
    operation and after an upload: each operation that writes a filter list
    ends with [applyFilters()] on that image, and new images start with an
    empty list. *)
Theorem operations_apply_what_they_write
        (w : World) (a : Action) (canvasWidth canvasHeight : Q)
        (file : nat) (width height : Q) :
  applied w ->
  applied (exec (perform a) w) /\
  applied (exec (imageLoaded canvasWidth canvasHeight file width height) w).
Proof.
  intros Hp. split.
  - destruct a; simpl perform;
      try (apply (applied_same_heap w); [reflexivity | exact Hp]).
    + (* toggleGrayscale *)
      unfold toggleGrayscale, exec, bind, get.
      destruct (activeImage (store w)) as [img |]; [| exact Hp].
      destruct (canvas (store w)) as [cv |] eqn:Hc; [| exact Hp].
      destruct (isGrayscale (store w)); cbn;
        (eapply (applied_bake w _ img);
         [ | | cbn; reflexivity | exact Hp ];
         [ intros i; reflexivity
         | intros k Hk; rewrite !list_lookup_alter_ne by auto; reflexivity ]).
    + apply updateAdjustment_applied, Hp.
    + (* resetAdjustments *)
      unfold resetAdjustments, exec, bind, get.
      destruct (activeImage (store w)) as [img |]; [| exact Hp].
      destruct (canvas (store w)) as [cv |] eqn:Hc; [| exact Hp].
      cbn. eapply (applied_bake w _ img);
        [ | | cbn; reflexivity | exact Hp ];
        [ intros i; reflexivity
        | intros k Hk; rewrite !list_lookup_alter_ne by auto; reflexivity ].
    + (* undo *)
      destruct (ready_dec w) as [Hr | Hn].
      * destruct (history (store w)) as [| e h] eqn:Hh.
        -- destruct Hr as (img & cv & Hi & Hc).
           unfold undo, exec, bind, get. rewrite Hi, Hc, Hh. exact Hp.
        -- assert (Hne : history (store w) <> []) by (rewrite Hh; discriminate).
           rewrite (undo_unfold w Hr Hne). rewrite Hh.
           apply updateAdjustment_applied.
           apply (applied_same_heap w); [reflexivity | exact Hp].
      * unfold exec. rewrite (not_ready_undo w Hn). exact Hp.
    + apply runCalls_applied, Hp.
    + (* rotateImage *)
      unfold rotateImage, exec, bind, get.
      destruct (activeImage (store w)) as [img |]; [| exact Hp].
      destruct (canvas (store w)) as [cv |] eqn:Hc; [| exact Hp].
      cbn. intros k i H. unfold imageAt in H. cbn in H.
      destruct (Nat.eq_dec k img) as [-> | Hne].
      -- rewrite list_lookup_alter_eq in H.
         destruct (heap w !! img) as [[i0 | r] |] eqn:E; try discriminate.
         cbn in H. injection H as <-. cbn. apply (Hp img i0).
         unfold imageAt. rewrite E. reflexivity.
      -- rewrite list_lookup_alter_ne in H by auto. apply (Hp k i). exact H.
    + (* cropImage *)
      unfold cropImage. rewrite exec_bind.
      change (exec get w) with w. change (fst (get w)) with (store w).
      destruct (activeImage (store w)) as [img |]; [| exact Hp].
      destruct (canvas (store w)) as [cv |] eqn:Hc; [| exact Hp].
      rewrite exec_bind. set (m := forEach _ _).
      assert (Hm : heap (exec m w) = heap w).
      { apply forEach_heap. intros x w0. destruct (Nat.eqb x img); reflexivity. }
      assert (Hp1 : applied (exec m w)) by (apply (applied_same_heap w); assumption).
      generalize dependent (exec m w). intros w1 _ Hp1. unfold exec.
      destruct (imageAt img w1); [| exact Hp1].
      eapply (applied_push w1); [| cbn; reflexivity | exact Hp1].
      intros i0 E. discriminate.
    + (* applyCrop *)
      rewrite exec_bind. unfold exec. rewrite applyCrop_world. exact Hp.
    + (* cropLoaded *)
      unfold cropLoaded, exec. destruct (rectAt (p_rect p) w); [| exact Hp].
      eapply (applied_push w); [| cbn; reflexivity | exact Hp].
      intros i0 E. injection E as <-. reflexivity.
    + (* downloadImage *)
      unfold downloadImage, exec. destruct (canvas (store w)); exact Hp.
  - eapply (applied_push w); [| cbn; reflexivity | exact Hp].
    intros i0 E. injection E as <-. reflexivity.
Qed.

Lemma operations_apply_what_they_write_witness :
  applied (exec (perform ToggleGrayscale) sampleWorld).
Proof.
  apply (operations_apply_what_they_write sampleWorld ToggleGrayscale 800 600 1 400 300).
  intros k i H. destruct k as [| k]; [| destruct k; discriminate].
  injection H as <-. reflexivity.
Defined.
